(** * distributed_provider: the tab scheduler's [EventQueue] and the schema
    column declarations, embedded and verified.

    Part one embeds [src/manager/tabScheduler/eventQueue.ts]: the class
    [EventQueue<T>] with its static concurrency limit, its two task lists,
    its two flags, the emitter it fires and the callbacks it hands to
    [setTimeout].  A method is a function from state to state; the JS
    event loop is the [Timeout] call of [step].

    Part two embeds the column declarations of the schema layer
    ([ColumnType] and its subclasses): [genCreateSql] and [verify], with
    JS exceptions as the [Throw] completion. *)

From Stdlib Require Import ZArith QArith Lia Ascii Sorted.
From stdpp Require Import base decidable option list strings pretty.

Local Open Scope Z_scope.

(** ** Logger

    Modelled from the spec: the [Logger] class ([src/logger]) is not among
    the sources.  The spec only distinguishes severities ("logged at
    error severity"), so a log is the list of entries written so far, each
    with the severity of the method that wrote it ([info] or [error]), the
    message and the value logged with it. *)

Inductive Severity := SevInfo | SevError.

Inductive LogArg (T P : Type) :=
| ArgNone
| ArgTask (task : T)
| ArgItem (item : P)
| ArgTasks (tasks : list T).
Arguments ArgNone {T P}.
Arguments ArgTask {T P} task.
Arguments ArgItem {T P} item.
Arguments ArgTasks {T P} tasks.

Record LogEntry (T P : Type) := mkLog {
  severity : Severity;
  message : string;
  payload : LogArg T P
}.
Arguments mkLog {T P}.
Arguments severity {T P}.
Arguments message {T P}.
Arguments payload {T P}.

(** ** Emitter

    Modelled from the spec: the [Emitter] class ([src/event]) is not among
    the sources.  The queue uses four of its members: [event] (subscribe a
    listener), [hasListeners], [fire] and [dispose].  The spec says of it
    that an event can be fired "with zero listeners attached" and that
    [destroy] "detaches all listeners"; so an emitter is the number of
    listeners attached, and [dispose] sets it to zero. *)

Record Emitter := mkEmitter { listeners : nat }.

Definition event (e : Emitter) : Emitter := mkEmitter (S (listeners e)).
Definition hasListeners (e : Emitter) : bool := bool_decide (0 < listeners e)%nat.
Definition dispose (e : Emitter) : Emitter := mkEmitter 0.

(** ** EventQueue *)

Section EventQueue.

(** [T] is the task type, [P] is [Partial<T>], and [filter] is
    [options.filter], given to the constructor. *)
Context {T P : Type}.
Variable filter : P -> T -> bool.

(** The static field, the instance fields, and the three parts of the
    environment the methods act on: the callbacks [() => this.queueLoop()]
    waiting in the timer queue (they are all the same callback, so their
    number is enough), the log, and the payloads [fire] has handed to the
    listeners, oldest first.

    The limit is an integer ("positive integer, default 5" in the
    configuration surface of the spec); [changeConcurrency] can set it to
    any integer, also zero or a negative one.

    A listener is an observer: [delivered] keeps the contents of the
    array it was handed at the time of the call.  What a listener does
    then, calls back into the queue included, is a later call of the
    sequence: the public methods neither read nor write
    [isLoopScheduled], the only field [queueLoop] changes after [fire]. *)
Record State := mkState {
  MAX_CONCURRENCY : Z;
  eventQueue : list T;
  activeTasks : list T;
  isDispatching : bool;
  isLoopScheduled : bool;
  _onTaskActivation : Emitter;
  timers : nat;
  logger : list (LogEntry T P);
  delivered : list (list T)
}.

Definition set_MAX_CONCURRENCY (v : Z) (s : State) : State :=
  mkState v (eventQueue s) (activeTasks s) (isDispatching s) (isLoopScheduled s)
          (_onTaskActivation s) (timers s) (logger s) (delivered s).
Definition set_eventQueue (v : list T) (s : State) : State :=
  mkState (MAX_CONCURRENCY s) v (activeTasks s) (isDispatching s) (isLoopScheduled s)
          (_onTaskActivation s) (timers s) (logger s) (delivered s).
Definition set_activeTasks (v : list T) (s : State) : State :=
  mkState (MAX_CONCURRENCY s) (eventQueue s) v (isDispatching s) (isLoopScheduled s)
          (_onTaskActivation s) (timers s) (logger s) (delivered s).
Definition set_isDispatching (v : bool) (s : State) : State :=
  mkState (MAX_CONCURRENCY s) (eventQueue s) (activeTasks s) v (isLoopScheduled s)
          (_onTaskActivation s) (timers s) (logger s) (delivered s).
Definition set_isLoopScheduled (v : bool) (s : State) : State :=
  mkState (MAX_CONCURRENCY s) (eventQueue s) (activeTasks s) (isDispatching s) v
          (_onTaskActivation s) (timers s) (logger s) (delivered s).
Definition set_onTaskActivation (v : Emitter) (s : State) : State :=
  mkState (MAX_CONCURRENCY s) (eventQueue s) (activeTasks s) (isDispatching s)
          (isLoopScheduled s) v (timers s) (logger s) (delivered s).
Definition set_timers (v : nat) (s : State) : State :=
  mkState (MAX_CONCURRENCY s) (eventQueue s) (activeTasks s) (isDispatching s)
          (isLoopScheduled s) (_onTaskActivation s) v (logger s) (delivered s).

(** [this.logger.info(msg, arg)] and [this.logger.error(msg, arg)]. *)
Definition log (sev : Severity) (msg : string) (arg : LogArg T P) (s : State) : State :=
  mkState (MAX_CONCURRENCY s) (eventQueue s) (activeTasks s) (isDispatching s)
          (isLoopScheduled s) (_onTaskActivation s) (timers s)
          (logger s ++ [mkLog sev msg arg]) (delivered s).

(** [this._onTaskActivation.fire({ tasks })]. *)
Definition fire (tasks : list T) (s : State) : State :=
  mkState (MAX_CONCURRENCY s) (eventQueue s) (activeTasks s) (isDispatching s)
          (isLoopScheduled s) (_onTaskActivation s) (timers s) (logger s)
          (delivered s ++ [tasks]).

(** [setTimeout(() => this.queueLoop())]. *)
Definition setTimeout (s : State) : State := set_timers (S (timers s)) s.

(** [static MAX_CONCURRENCY = 5]. *)
Definition DEFAULT_MAX_CONCURRENCY : Z := 5.

(** [new EventQueue(options)], with the static limit at [max]. *)
Definition construct (max : Z) : State :=
  log SevInfo "EventQueue created" ArgNone
      (mkState max [] [] false false (mkEmitter 0) 0 [] []).

(** A queue made before any [changeConcurrency]. *)
Definition fresh : State := construct DEFAULT_MAX_CONCURRENCY.

Definition changeConcurrency (value : Z) (s : State) : State :=
  set_MAX_CONCURRENCY value s.

Definition enqueue (task : T) (s : State) : State :=
  let s := log SevInfo "enqueue" (ArgTask task) s in
  let s := set_eventQueue (eventQueue s ++ [task]) s in
  if negb (isDispatching s)
  then setTimeout (set_isDispatching true s)
  else s.

(** The [while] of [queueLoop]: as long as the active list is shorter
    than the limit and a task is pending, [shift] the first pending
    task and [push] it on the active list.  The result is the pending
    and the active list when the loop ends. *)
Fixpoint queueLoop_while (max : Z) (pending active : list T) : list T * list T :=
  match pending with
  | task :: rest =>
      if bool_decide (Z.of_nat (length active) < max)
      then queueLoop_while max rest (active ++ [task])
      else (pending, active)
  | [] => ([], active)
  end.

Definition fireActiveTask (s : State) : State :=
  if hasListeners (_onTaskActivation s)
  then fire (activeTasks s) s
  else log SevError "Severity error !!!!!! No listener for active task, task will be completed"
           (ArgTasks (activeTasks s)) s.

Definition queueLoop (s : State) : State :=
  if isLoopScheduled s then s
  else
    let s := set_isLoopScheduled true s in
    let '(pending, active) :=
      queueLoop_while (MAX_CONCURRENCY s) (eventQueue s) (activeTasks s) in
    let s := set_activeTasks active (set_eventQueue pending s) in
    let s := fireActiveTask s in
    set_isLoopScheduled false s.

(** [Array.prototype.findIndex]: the index of the first element the
    predicate holds of, and [-1] when there is none. *)
Definition findIndex (p : T -> bool) (l : list T) : Z :=
  match list_find (fun t => Is_true (p t)) l with
  | Some (i, _) => Z.of_nat i
  | None => -1
  end.

Definition completeTask (item : P) (s : State) : State :=
  let idx := findIndex (filter item) (activeTasks s) in
  let s :=
    if bool_decide (idx > -1)
    then log SevInfo "task completed:" (ArgItem item)
             (set_activeTasks (delete (Z.to_nat idx) (activeTasks s)) s)
    else log SevError "task not found:" (ArgItem item) s in
  if bool_decide (length (activeTasks s) = 0%nat)
  then
    let s := set_isDispatching false s in
    if bool_decide (0 < length (eventQueue s))%nat then setTimeout s else s
  else s.

Definition reActivation (s : State) : State := fireActiveTask s.

Definition destroy (s : State) : State :=
  let s := log SevInfo "destroy" ArgNone s in
  let s := set_eventQueue [] s in
  let s := set_activeTasks [] s in
  set_onTaskActivation (dispose (_onTaskActivation s)) s.

(** *** The calls a queue receives

    The public methods, a subscription to [onTaskActivation], and
    [Timeout]: the event loop takes the oldest callback out of the timer
    queue and runs it (nothing happens when the queue is empty). *)
Inductive Call :=
| Enqueue (task : T)
| CompleteTask (item : P)
| ReActivation
| Destroy
| ChangeConcurrency (value : Z)
| OnTaskActivation
| Timeout.

Definition step (c : Call) (s : State) : State :=
  match c with
  | Enqueue task => enqueue task s
  | CompleteTask item => completeTask item s
  | ReActivation => reActivation s
  | Destroy => destroy s
  | ChangeConcurrency value => changeConcurrency value s
  | OnTaskActivation => set_onTaskActivation (event (_onTaskActivation s)) s
  | Timeout =>
      match timers s with
      | O => s
      | S n => queueLoop (set_timers n s)
      end
  end.

Fixpoint run (cs : list Call) (s : State) : State :=
  match cs with
  | [] => s
  | c :: cs => run cs (step c s)
  end.

(** Letting the dispatch cycle run: every callback waiting in the timer
    queue is run ([queueLoop] schedules none itself). *)
Definition flushTimers (s : State) : State := run (replicate (timers s) Timeout) s.

(** *** Traces

    What a sequence of calls hands to the queue and what it takes out of
    it: the tasks passed to [enqueue], and the tasks [completeTask]
    splices out of the active list (the element [findIndex] stops at). *)
Definition enqueued_by (c : Call) : list T :=
  match c with
  | Enqueue task => [task]
  | _ => []
  end.

Definition completed_by (c : Call) (s : State) : list T :=
  match c with
  | CompleteTask item =>
      match list_find (fun t => Is_true (filter item t)) (activeTasks s) with
      | Some (_, task) => [task]
      | None => []
      end
  | _ => []
  end.

Fixpoint enqueued (cs : list Call) : list T :=
  match cs with
  | [] => []
  | c :: cs => enqueued_by c ++ enqueued cs
  end.

Fixpoint completed (cs : list Call) (s : State) : list T :=
  match cs with
  | [] => []
  | c :: cs => completed_by c s ++ completed cs (step c s)
  end.

(** The calls on a queue in use whose limit is held fixed: every call
    but [destroy] and [changeConcurrency]. *)
Definition queue_call (c : Call) : bool :=
  match c with
  | Destroy | ChangeConcurrency _ => false
  | _ => true
  end.

(** The calls that attach no listener: every call but a subscription. *)
Definition attaches_no_listener (c : Call) : bool :=
  match c with
  | OnTaskActivation => false
  | _ => true
  end.

(** The payloads fired between an earlier state [s0] and [s], oldest
    first. *)
Definition fired_since (s0 s : State) : list (list T) :=
  drop (length (delivered s0)) (delivered s).

(** The state of a queue in use under the limit [max]: no loop is
    running; while dispatch is marked in progress, a task is active or a
    cycle is scheduled for the pending ones; and while it is not, tasks
    do not wait behind an empty active list without a cycle scheduled. *)
Definition scheduled (max : Z) (s : State) : Prop :=
  MAX_CONCURRENCY s = max /\
  isLoopScheduled s = false /\
  (isDispatching s = true ->
   activeTasks s <> [] \/ (eventQueue s <> [] /\ 0 < timers s)%nat) /\
  (isDispatching s = false ->
   eventQueue s <> [] -> activeTasks s = [] -> (0 < timers s)%nat).

End EventQueue.

Arguments State : clear implicits.
Arguments Call : clear implicits.

(** ** Schema columns *)

Module Schema.

(** *** JS values and completions

    A method call either returns or throws. *)

Inductive JsError :=
| Error (msg : string)
| TypeError (msg : string).

Inductive Completion (A : Type) :=
| Normal (a : A)
| Throw (e : JsError).
Arguments Normal {A} a.
Arguments Throw {A} e.

#[global] Instance Completion_ret : MRet Completion := fun A a => Normal a.
#[global] Instance Completion_bind : MBind Completion := fun A B f m =>
  match m with
  | Normal a => f a
  | Throw e => Throw e
  end.

(** A JS number: [NaN], an infinity, or a finite number.  The finite
    doubles are rationals, and the model takes every rational; [+0] and
    [-0] are one number (no operation of [verify] tells them apart). *)
Inductive JsNumber :=
| NaN
| Infinity (negative : bool)
| Finite (q : Q).

(** [verify] takes [value: any]: a primitive value of one of the seven
    kinds, or an object.  An object stands for what the operations of
    [verify] observe of it: whether [typeof] gives 'function', what
    reading its [length] gives, and what its conversion to a primitive
    (by [Symbol.toPrimitive], [valueOf] and [toString]) gives.  A read
    or a conversion may throw; it is taken to give the same outcome
    each time and to change nothing else. *)
#[warnings="-register-all"] Inductive Value :=
| VUndefined
| VNull
| VBoolean (b : bool)
| VNumber (x : JsNumber)
| VString (s : string)
| VBigInt (n : Z)
| VSymbol
| VObject (callable : bool) (length : Completion Value) (primitive : Completion Value).

Definition typeof (v : Value) : string :=
  match v with
  | VUndefined => "undefined"
  | VNull => "object"
  | VBoolean _ => "boolean"
  | VNumber _ => "number"
  | VString _ => "string"
  | VBigInt _ => "bigint"
  | VSymbol => "symbol"
  | VObject callable _ _ => if callable then "function" else "object"
  end.

(** [value.length]: reading a property of [null] or [undefined] throws a
    [TypeError]; a string has its length; the other primitive values
    have no such property and the read gives [undefined]; an object
    gives what its [length] gives. *)
Definition get_length (v : Value) : Completion Value :=
  match v with
  | VUndefined => Throw (TypeError "Cannot read properties of undefined (reading 'length')")
  | VNull => Throw (TypeError "Cannot read properties of null (reading 'length')")
  | VString s => Normal (VNumber (Finite (inject_Z (Z.of_nat (String.length s)))))
  | VBoolean _ | VNumber _ | VBigInt _ | VSymbol => Normal VUndefined
  | VObject _ length _ => length
  end.

(** [ToPrimitive]: a primitive value is itself; an object is converted
    by its methods, and a conversion that gives an object again is a
    [TypeError]. *)
Definition ToPrimitive (v : Value) : Completion Value :=
  match v with
  | VObject _ _ primitive =>
      match primitive with
      | Normal (VObject _ _ _) => Throw (TypeError "Cannot convert object to primitive value")
      | outcome => outcome
      end
  | _ => Normal v
  end.

(** [Array.prototype.push], as the new array. *)
Definition push {A} (l : list A) (x : A) : list A := l ++ [x].

(** [Array.prototype.join]. *)
Definition join (sep : string) (l : list string) : string := String.concat sep l.

(** [enums.includes(value)] on a [string[]] and on a [number[]]: a
    member is found when it is the same value, so that a string is found
    among strings only, and among the numbers of a declaration (which
    are integers) a number equal to one of them. *)
Definition includes_string (enums : list string) (v : Value) : bool :=
  match v with
  | VString s => bool_decide (s ∈ enums)
  | _ => false
  end.

Definition includes_number (enums : list Z) (v : Value) : bool :=
  match v with
  | VNumber (Finite q) => existsb (fun n => Qeq_bool q (inject_Z n)) enums
  | _ => false
  end.

(** The fields of the abstract class [ColumnType], with their initial
    values. *)
Record ColumnType := mkColumnType {
  _required : bool;
  _unique : bool;
  _primary : bool;
  _autoIncrement : bool
}.

Definition ColumnType_new : ColumnType := mkColumnType true false false false.

(** The subclasses.  A [ColumnOptional] has the fields of [ColumnType] of
    its own, beside the column it wraps.  The bounds and the enumerated
    numbers of a declaration are integers; the values that [verify]
    checks are any JS values. *)
Inductive Column :=
| ColumnDate (base : ColumnType)
| ColumnText (base : ColumnType) (_default : option string)
    (_max _min : option Z) (_enums : option (list string))
| ColumnInteger (base : ColumnType) (_default : option Z)
    (_max _min : option Z) (_enums : option (list Z))
| ColumnBoolean (base : ColumnType) (_default : option bool)
| ColumnOptional (base : ColumnType) (_column : Column).

Definition base_of (c : Column) : ColumnType :=
  match c with
  | ColumnDate b | ColumnText b _ _ _ _ | ColumnInteger b _ _ _ _
  | ColumnBoolean b _ | ColumnOptional b _ => b
  end.

Definition with_base (f : ColumnType -> ColumnType) (c : Column) : Column :=
  match c with
  | ColumnDate b => ColumnDate (f b)
  | ColumnText b d mx mn e => ColumnText (f b) d mx mn e
  | ColumnInteger b d mx mn e => ColumnInteger (f b) d mx mn e
  | ColumnBoolean b d => ColumnBoolean (f b) d
  | ColumnOptional b c => ColumnOptional (f b) c
  end.

(** The builder methods of [ColumnType] and the functions that make a
    column. *)
Definition autoIncrement (c : Column) : Column :=
  with_base (fun b => mkColumnType (_required b) (_unique b) (_primary b) true) c.
Definition primary (c : Column) : Column :=
  with_base (fun b => mkColumnType (_required b) (_unique b) true (_autoIncrement b)) c.
Definition unique (c : Column) : Column :=
  with_base (fun b => mkColumnType (_required b) true (_primary b) (_autoIncrement b)) c.
(** [new ColumnOptional(this)]: the constructor sets [_required] of the
    wrapped column to [false]; the wrapper's own fields are the initial
    ones. *)
Definition optional (c : Column) : Column :=
  ColumnOptional ColumnType_new
    (with_base (fun b => mkColumnType false (_unique b) (_primary b) (_autoIncrement b)) c).
Definition unwrap (c : Column) : Column :=
  match c with
  | ColumnOptional _ col => col
  | _ => c
  end.

Definition text : Column := ColumnText ColumnType_new None None None None.
Definition integer : Column := ColumnInteger ColumnType_new None None None None.
Definition boolean : Column := ColumnBoolean ColumnType_new None.
Definition date : Column := ColumnDate ColumnType_new.

(** [max], [min] and [enum] of [ColumnText] and [ColumnInteger]. *)
Definition max (m : Z) (c : Column) : Column :=
  match c with
  | ColumnText b d _ mn e => ColumnText b d (Some m) mn e
  | ColumnInteger b d _ mn e => ColumnInteger b d (Some m) mn e
  | _ => c
  end.
Definition min (m : Z) (c : Column) : Column :=
  match c with
  | ColumnText b d mx _ e => ColumnText b d mx (Some m) e
  | ColumnInteger b d mx _ e => ColumnInteger b d mx (Some m) e
  | _ => c
  end.

Definition genCreateSql (c : Column) : Completion (list string) :=
  let this := base_of c in
  let sql : list string := [] in
  if _autoIncrement this && negb (_primary this)
  then Throw (Error "AUTOINCREMENT can only be applied to a primary key")
  else
    let sql := if _primary this then push sql "PRIMARY KEY" else sql in
    let sql := if _required this then push sql "NOT NULL" else sql in
    let sql := if _unique this then push sql "UNIQUE" else sql in
    let sql := if _autoIncrement this then push sql "AUTOINCREMENT" else sql in
    Normal sql.

(** [ColumnType.verify], which the subclasses call as [super.verify]. *)
Definition ColumnType_verify (this : ColumnType) (value : Value) : list string :=
  let messages : list string := [] in
  if _required this
  then
    match value with
    | VUndefined | VNull => push messages "value is required"
    | _ => messages
    end
  else messages.

Section Verify.

(** The two conversions of ECMAScript that [verify] relies on and that
    the model leaves open: a string read as a number, and a number
    printed in a template literal. *)
Variable StringToNumber : string -> JsNumber.
Variable NumberToString : Z -> string.

(** [ToNumeric] of a primitive value, as a comparison with a number
    uses it: a symbol cannot be converted, and a bigint is compared by
    its value. *)
Definition ToNumeric (v : Value) : Completion JsNumber :=
  match v with
  | VUndefined => Normal NaN
  | VNull => Normal (Finite 0)
  | VBoolean b => Normal (Finite (if b then 1 else 0))
  | VNumber x => Normal x
  | VString s => Normal (StringToNumber s)
  | VBigInt n => Normal (Finite (inject_Z n))
  | VSymbol => Throw (TypeError "Cannot convert a Symbol value to a number")
  | VObject _ _ _ => Throw (TypeError "Cannot convert object to primitive value")
  end.

(** [x > m] and [x < m] on numbers, for an integer [m]; a comparison
    with [NaN] is false. *)
Definition number_gt (x : JsNumber) (m : Z) : bool :=
  match x with
  | NaN => false
  | Infinity negative => negb negative
  | Finite q => negb (Qle_bool q (inject_Z m))
  end.
Definition number_lt (x : JsNumber) (m : Z) : bool :=
  match x with
  | NaN => false
  | Infinity negative => negative
  | Finite q => negb (Qle_bool (inject_Z m) q)
  end.

(** [v > m] and [v < m] for any value [v] and a number [m]: [v] is
    converted to a primitive and then to a number, and either step can
    throw. *)
Definition greater (v : Value) (m : Z) : Completion bool :=
  p ← ToPrimitive v; x ← ToNumeric p; mret (number_gt x m).
Definition less (v : Value) (m : Z) : Completion bool :=
  p ← ToPrimitive v; x ← ToNumeric p; mret (number_lt x m).

(** [this._max && ...]: [undefined] and [0] are falsy. *)
Definition truthy (m : option Z) : option Z :=
  match m with
  | Some n => if bool_decide (n = 0) then None else Some n
  | None => None
  end.

Definition ColumnText_verify (this : ColumnType) (_max _min : option Z)
    (_enums : option (list string)) (value : Value) : Completion (list string) :=
  let messages := ColumnType_verify this value in
  let messages :=
    if bool_decide (typeof value ≠ "string")
    then push messages "value must be string" else messages in
  messages ←
    match truthy _max with
    | Some m =>
        len ← get_length value;
        above ← greater len m;
        mret (if (above : bool)
              then push messages ("value length must less than " +:+ NumberToString m)
              else messages)
    | None => mret messages
    end;
  messages ←
    match truthy _min with
    | Some m =>
        len ← get_length value;
        below ← less len m;
        mret (if (below : bool)
              then push messages ("value length must greater than " +:+ NumberToString m)
              else messages)
    | None => mret messages
    end;
  let messages :=
    match _enums with
    | Some enums =>
        if negb (includes_string enums value)
        then push messages ("value must be one of " +:+ join ", " enums)
        else messages
    | None => messages
    end in
  mret messages.

Definition ColumnInteger_verify (this : ColumnType) (_max _min : option Z)
    (_enums : option (list Z)) (value : Value) : Completion (list string) :=
  let messages := ColumnType_verify this value in
  let messages :=
    if bool_decide (typeof value ≠ "number")
    then push messages "value must be number" else messages in
  messages ←
    match truthy _max with
    | Some m =>
        above ← greater value m;
        mret (if (above : bool)
              then push messages ("value must less than " +:+ NumberToString m)
              else messages)
    | None => mret messages
    end;
  messages ←
    match truthy _min with
    | Some m =>
        below ← less value m;
        mret (if (below : bool)
              then push messages ("value must greater than " +:+ NumberToString m)
              else messages)
    | None => mret messages
    end;
  let messages :=
    match _enums with
    | Some enums =>
        if negb (includes_number enums value)
        then push messages ("value must be one of " +:+ join ", " (NumberToString <$> enums))
        else messages
    | None => messages
    end in
  mret messages.

Definition ColumnBoolean_verify (this : ColumnType) (value : Value) : Completion (list string) :=
  let messages := ColumnType_verify this value in
  let messages :=
    if bool_decide (typeof value ≠ "boolean")
    then push messages "value must be boolean" else messages in
  mret messages.

(** [column.verify(value)], by the class of [column]. *)
Fixpoint verify (c : Column) (value : Value) : Completion (list string) :=
  match c with
  | ColumnDate this => mret (ColumnType_verify this value)
  | ColumnText this _ _max _min _enums => ColumnText_verify this _max _min _enums value
  | ColumnInteger this _ _max _min _enums => ColumnInteger_verify this _max _min _enums value
  | ColumnBoolean this _ => ColumnBoolean_verify this value
  | ColumnOptional _ _column => verify _column value
  end.

End Verify.

(** *** The other builder methods

    [enum] and [default] of the three typed columns.  Like the other
    builder methods they set one field and return the column. *)
Definition ColumnText_enum (enums : list string) (c : Column) : Column :=
  match c with
  | ColumnText b d mx mn _ => ColumnText b d mx mn (Some enums)
  | _ => c
  end.
Definition ColumnInteger_enum (enums : list Z) (c : Column) : Column :=
  match c with
  | ColumnInteger b d mx mn _ => ColumnInteger b d mx mn (Some enums)
  | _ => c
  end.
Definition ColumnText_default (value : string) (c : Column) : Column :=
  match c with
  | ColumnText b _ mx mn e => ColumnText b (Some value) mx mn e
  | _ => c
  end.
Definition ColumnInteger_default (value : Z) (c : Column) : Column :=
  match c with
  | ColumnInteger b _ mx mn e => ColumnInteger b (Some value) mx mn e
  | _ => c
  end.
Definition ColumnBoolean_default (value : bool) (c : Column) : Column :=
  match c with
  | ColumnBoolean b _ => ColumnBoolean b (Some value)
  | _ => c
  end.

(** [ColumnDate.now] has an empty body: the call returns [undefined]
    ([None]), not the column. *)
Definition now (this : Column) : option Column := None.

(** The column at the end of a chain of [ColumnOptional] wrappers, the
    one whose [verify] runs. *)
Fixpoint innermost (c : Column) : Column :=
  match c with
  | ColumnOptional _ col => innermost col
  | _ => c
  end.

(** What the constructor of [ColumnOptional] establishes and no method
    undoes: a wrapped column is not required. *)
Fixpoint wrapped_not_required (c : Column) : Prop :=
  match c with
  | ColumnOptional _ col => _required (base_of col) = false /\ wrapped_not_required col
  | _ => True
  end.

(** *** Objects with string keys

    An object is the list of its own properties in the order of their
    creation, with distinct keys.  [obj_set] is the definition of a data
    property (the value changes in place when the key is there),
    [obj_entries] is [Object.entries], and [obj_spread target source] is
    the spread [...source] in an object literal that holds [target] so
    far.  The keys that are array indices ("0", "1", ... up to 2^32 - 2,
    in canonical form) are enumerated first, in numeric order, and then
    the other keys in the order of creation. *)
Fixpoint obj_get {V} (k : string) (o : list (string * V)) : option V :=
  match o with
  | [] => None
  | (k', v) :: o => if decide (k' = k) then Some v else obj_get k o
  end.

Fixpoint obj_set {V} (k : string) (v : V) (o : list (string * V)) : list (string * V) :=
  match o with
  | [] => [(k, v)]
  | (k', v') :: o => if decide (k' = k) then (k, v) :: o else (k', v') :: obj_set k v o
  end.

Definition digit (a : ascii) : option N :=
  let n := N_of_ascii a in
  if bool_decide (48 <= n <= 57)%N then Some (n - 48)%N else None.

Fixpoint digits (acc : N) (s : string) : option N :=
  match s with
  | EmptyString => Some acc
  | String a s => d ← digit a; digits (acc * 10 + d)%N s
  end.

Definition array_index (k : string) : option N :=
  match k with
  | EmptyString => None
  | String a rest =>
      if bool_decide (a = "0"%char /\ rest <> EmptyString) then None
      else n ← digits 0 k; if bool_decide (n < 4294967295)%N then Some n else None
  end.

Definition index_of {V} (kv : string * V) : N := default 0%N (array_index kv.1).

(** Sorting by index.  The keys of an object are distinct, and so are
    their indices: the order of the result does not depend on how the
    sort treats equal indices. *)
Fixpoint insert_by_index {V} (x : string * V) (l : list (string * V))
    : list (string * V) :=
  match l with
  | [] => [x]
  | y :: l' =>
      if decide (index_of x <= index_of y)%N then x :: l else y :: insert_by_index x l'
  end.

Definition sort_by_index {V} (l : list (string * V)) : list (string * V) :=
  foldr insert_by_index [] l.

Definition obj_entries {V} (o : list (string * V)) : list (string * V) :=
  sort_by_index (base.filter (fun kv => is_Some (array_index kv.1)) o)
  ++ base.filter (fun kv => ~ is_Some (array_index kv.1)) o.

Definition obj_spread {V} (target source : list (string * V)) : list (string * V) :=
  foldl (fun o kv => obj_set kv.1 kv.2 o) target (obj_entries source).

(** An object literal [{ k1: v1, ..., kn: vn }]. *)
Definition obj_literal {V} (properties : list (string * V)) : list (string * V) :=
  foldl (fun o kv => obj_set kv.1 kv.2 o) [] properties.

(** *** Table *)

(** [Table.kernelColumns], as the class initialises it.  The three date
    columns are what [now] returns.  (The object is shared by all
    tables and the builder methods change a column in place; the model
    takes the kernel columns as initialised.) *)
Definition kernelColumns : list (string * option Column) :=
  obj_literal
    [("_id", Some (autoIncrement (primary integer)));
     ("_createAt", now date);
     ("_updateAt", now date);
     ("_deleteAt", now date)].

Record Table := mkTable {
  name : string;
  columns : list (string * option Column)
}.

(** [new Table(name, columns)], that is [table(name, columns)]: the
    columns are [{ ...Table.kernelColumns, ...columns }].  The columns
    given are columns, as their type says. *)
Definition table (name : string) (columns : list (string * Column)) : Table :=
  mkTable name (obj_spread (obj_spread [] kernelColumns) (prod_map id Some <$> columns)).

(** The callback of [map] in [Table.genCreateSql]: the template literal
    calls [genCreateSql] on the column, which throws when the column is
    [undefined] or when the method does. *)
Definition column_sql (entry : string * option Column) : Completion string :=
  match entry.2 with
  | None => Throw (TypeError "Cannot read properties of undefined (reading 'genCreateSql')")
  | Some column => sql ← genCreateSql column; mret (entry.1 +:+ " " +:+ join " " sql)
  end.

Definition Table_genCreateSql (this : Table) : Completion string :=
  columns ← mapM column_sql
              (obj_entries (obj_spread (obj_spread [] kernelColumns) (columns this)));
  mret ("CREATE TABLE IF NOT EXISTS " +:+ name this +:+ " (" +:+ join ", " columns +:+ ");").

End Schema.

(** ** Concrete queues

    Tasks are numbered; a descriptor is a number too and matches the task
    with that number. *)
Definition same_number (item task : nat) : bool := Nat.eqb item task.

Definition seven_tasks : list nat := [1; 2; 3; 4; 5; 6; 7]%nat.

(** The scenario of seven tasks under the default limit: a listener is
    attached, the tasks are enqueued and the dispatch cycle runs; then
    task 3 is completed and the timers, if any, run. *)
Definition first_cycle : State nat nat :=
  flushTimers same_number
    (run same_number (OnTaskActivation :: (Enqueue <$> seven_tasks)) fresh).

Definition after_one_completion : State nat nat :=
  flushTimers same_number (completeTask same_number 3%nat first_cycle).

(** A fresh queue with a listener, one task enqueued and the dispatch
    cycle run: the task is active and nothing is pending. *)
Definition one_active : State nat nat :=
  flushTimers same_number
    (run same_number [OnTaskActivation; Enqueue 1%nat] fresh).

(** * Properties of the EventQueue *)

Section EventQueueFacts.

Context {T P : Type}.
Variable filter : P -> T -> bool.

#[local] Abbreviation State := (State T P).
#[local] Abbreviation Call := (Call T P).

(** The loop admits the first [k] pending tasks, where [k] is the room
    left under the limit (all of them when there are fewer). *)
Lemma queueLoop_while_spec (max : Z) (pending active : list T) :
  queueLoop_while max pending active =
  (drop (Z.to_nat (max - Z.of_nat (length active))) pending,
   active ++ take (Z.to_nat (max - Z.of_nat (length active))) pending).
Proof.
  revert active. induction pending as [|task rest IH]; intros active; simpl.
  - by rewrite drop_nil, take_nil, app_nil_r.
  - case_bool_decide as Hlt.
    + rewrite IH, length_app. simpl.
      replace (Z.to_nat (max - Z.of_nat (length active)))
        with (S (Z.to_nat (max - Z.of_nat (length active + 1)%nat))) by lia.
      simpl. by rewrite <- app_assoc.
    + replace (Z.to_nat (max - Z.of_nat (length active))) with 0%nat by lia.
      simpl. by rewrite app_nil_r.
Qed.

Lemma queueLoop_while_app (max : Z) (pending active : list T) :
  (queueLoop_while max pending active).2 ++ (queueLoop_while max pending active).1
  = active ++ pending.
Proof. rewrite queueLoop_while_spec. simpl. by rewrite <- app_assoc, take_drop. Qed.

Lemma queueLoop_while_length (max : Z) (pending active : list T) :
  Z.of_nat (length active) <= max ->
  Z.of_nat (length (queueLoop_while max pending active).2) <= max.
Proof.
  intros Hle. rewrite queueLoop_while_spec. simpl.
  rewrite length_app, length_take. lia.
Qed.

(** What [queueLoop] does to the fields, when no loop is running. *)
Lemma queueLoop_fields (s : State) :
  isLoopScheduled s = false ->
  let r := queueLoop_while (MAX_CONCURRENCY s) (eventQueue s) (activeTasks s) in
  eventQueue (queueLoop s) = r.1 /\
  activeTasks (queueLoop s) = r.2 /\
  MAX_CONCURRENCY (queueLoop s) = MAX_CONCURRENCY s /\
  isDispatching (queueLoop s) = isDispatching s /\
  isLoopScheduled (queueLoop s) = false /\
  _onTaskActivation (queueLoop s) = _onTaskActivation s /\
  timers (queueLoop s) = timers s.
Proof.
  intros Hidle. unfold queueLoop. rewrite Hidle. simpl.
  destruct (queueLoop_while _ _ _) as [pending active]. simpl.
  unfold fireActiveTask. simpl. by destruct (hasListeners _).
Qed.

(** [completeTask] on the two lists: the active list loses the element
    [findIndex] stops at, if any; the pending list is not touched. *)
Lemma completeTask_lists (item : P) (s : State) :
  eventQueue (completeTask filter item s) = eventQueue s /\
  MAX_CONCURRENCY (completeTask filter item s) = MAX_CONCURRENCY s /\
  match list_find (fun t => Is_true (filter item t)) (activeTasks s) with
  | Some (i, _) => activeTasks (completeTask filter item s) = delete i (activeTasks s)
  | None => activeTasks (completeTask filter item s) = activeTasks s
  end.
Proof.
  unfold completeTask, findIndex.
  destruct (list_find _ _) as [[i x]|]; simpl.
  - rewrite (bool_decide_true (Z.of_nat i > -1)) by lia. simpl. rewrite Nat2Z.id.
    repeat case_bool_decide; simpl; auto.
  - repeat case_bool_decide; simpl; auto.
Qed.

Lemma enqueue_lists (task : T) (s : State) :
  eventQueue (enqueue task s) = eventQueue s ++ [task] /\
  activeTasks (enqueue task s) = activeTasks s /\
  MAX_CONCURRENCY (enqueue task s) = MAX_CONCURRENCY s.
Proof. unfold enqueue. simpl. by destruct (isDispatching s). Qed.

Lemma fireActiveTask_lists (s : State) :
  eventQueue (fireActiveTask s) = eventQueue s /\
  activeTasks (fireActiveTask s) = activeTasks s /\
  MAX_CONCURRENCY (fireActiveTask s) = MAX_CONCURRENCY s.
Proof. unfold fireActiveTask. by destruct (hasListeners _). Qed.

Lemma queueLoop_lists (s : State) :
  activeTasks (queueLoop s) ++ eventQueue (queueLoop s) = activeTasks s ++ eventQueue s /\
  MAX_CONCURRENCY (queueLoop s) = MAX_CONCURRENCY s /\
  (Z.of_nat (length (activeTasks s)) <= MAX_CONCURRENCY s ->
   Z.of_nat (length (activeTasks (queueLoop s))) <= MAX_CONCURRENCY s).
Proof.
  destruct (isLoopScheduled s) eqn:Hidle.
  - unfold queueLoop. rewrite Hidle. auto.
  - destruct (queueLoop_fields s Hidle) as (-> & -> & -> & _).
    split_and!; [apply queueLoop_while_app | done | apply queueLoop_while_length].
Qed.

(** With a loop running, [queueLoop] returns at once. *)
Lemma queueLoop_running (s : State) :
  isLoopScheduled s = true -> queueLoop s = s.
Proof. intros Hrun. unfold queueLoop. by rewrite Hrun. Qed.

(** What [queueLoop] hands out: the active list to the listeners, or an
    error entry to the log when there is none. *)
Lemma queueLoop_output (s : State) :
  isLoopScheduled s = false ->
  delivered (queueLoop s) =
    (if hasListeners (_onTaskActivation s)
     then delivered s ++ [activeTasks (queueLoop s)] else delivered s) /\
  logger (queueLoop s) =
    (if hasListeners (_onTaskActivation s) then logger s
     else logger s ++
          [mkLog SevError
             "Severity error !!!!!! No listener for active task, task will be completed"
             (ArgTasks (activeTasks (queueLoop s)))]).
Proof.
  intros Hidle. unfold queueLoop. rewrite Hidle. simpl.
  destruct (queueLoop_while _ _ _) as [pending active]. simpl.
  unfold fireActiveTask. simpl. by destruct (hasListeners _).
Qed.

(** The other fields after [completeTask], from the active list it
    leaves. *)
Lemma completeTask_fields (item : P) (s : State) :
  isLoopScheduled (completeTask filter item s) = isLoopScheduled s /\
  _onTaskActivation (completeTask filter item s) = _onTaskActivation s /\
  delivered (completeTask filter item s) = delivered s /\
  isDispatching (completeTask filter item s) =
    (if bool_decide (length (activeTasks (completeTask filter item s)) = 0%nat)
     then false else isDispatching s) /\
  timers (completeTask filter item s) =
    (if bool_decide (length (activeTasks (completeTask filter item s)) = 0%nat)
        && bool_decide (0 < length (eventQueue s))%nat
     then S (timers s) else timers s).
Proof.
  unfold completeTask.
  destruct (bool_decide (findIndex _ _ > -1)); simpl;
    repeat (case_bool_decide; simpl); auto; contradiction.
Qed.

(** A descriptor that matches the first active task removes it. *)
Lemma completeTask_head (item : P) (s : State) (t : T) (rest : list T) :
  activeTasks s = t :: rest ->
  filter item t = true ->
  activeTasks (completeTask filter item s) = rest.
Proof.
  intros Hact Hmatch.
  destruct (completeTask_lists item s) as (_ & _ & Hdel).
  rewrite Hact in Hdel. simpl in Hdel. rewrite Hmatch in Hdel. exact Hdel.
Qed.

(** Descriptors that match the active tasks one by one, in order, empty
    the active list; the last call marks dispatch idle and, when tasks
    are pending, schedules one dispatch cycle. *)
Lemma completeTask_in_order (items : list P) (s : State) :
  Forall2 (fun i t => filter i t = true) items (activeTasks s) ->
  activeTasks s <> [] ->
  activeTasks (run filter (CompleteTask <$> items) s) = [] /\
  eventQueue (run filter (CompleteTask <$> items) s) = eventQueue s /\
  MAX_CONCURRENCY (run filter (CompleteTask <$> items) s) = MAX_CONCURRENCY s /\
  isLoopScheduled (run filter (CompleteTask <$> items) s) = isLoopScheduled s /\
  _onTaskActivation (run filter (CompleteTask <$> items) s) = _onTaskActivation s /\
  delivered (run filter (CompleteTask <$> items) s) = delivered s /\
  isDispatching (run filter (CompleteTask <$> items) s) = false /\
  timers (run filter (CompleteTask <$> items) s) =
    (if bool_decide (0 < length (eventQueue s))%nat then S (timers s) else timers s).
Proof.
  revert s. induction items as [|item items IH]; intros s Hall Hne.
  { apply Forall2_nil_inv_l in Hall. done. }
  destruct (activeTasks s) as [|t rest] eqn:Hact; [done|].
  apply Forall2_cons_1 in Hall as [Hmatch Hrest].
  pose proof (completeTask_head item s t rest Hact Hmatch) as Hact'.
  destruct (completeTask_lists item s) as (Hq & Hmax & _).
  destruct (completeTask_fields item s) as (Hloop & Hem & Hdel & Hdisp & Htim).
  rewrite Hact' in Hdisp, Htim.
  change (run filter (CompleteTask <$> item :: items) s)
    with (run filter (CompleteTask <$> items) (completeTask filter item s)).
  destruct rest as [|t' rest].
  - apply Forall2_nil_inv_r in Hrest as ->. simpl in *.
    rewrite Hact', Hq, Hmax, Hloop, Hem, Hdel, Hdisp, Htim. done.
  - simpl in Hdisp, Htim.
    destruct (IH (completeTask filter item s)) as (-> & -> & -> & -> & -> & -> & -> & ->);
      [by rewrite Hact' | by rewrite Hact' |].
    rewrite Hq, Hmax, Hloop, Hem, Hdel, Htim. done.
Qed.

(** With no callback waiting, letting the timers run changes nothing;
    with one, it runs [queueLoop] once. *)
Lemma flushTimers_none (s : State) :
  timers s = 0%nat -> flushTimers filter s = s.
Proof. intros Hnone. unfold flushTimers. by rewrite Hnone. Qed.

Lemma flushTimers_one (s : State) :
  timers s = 1%nat -> flushTimers filter s = queueLoop (set_timers 0 s).
Proof. intros Hone. unfold flushTimers. rewrite Hone. simpl. by rewrite Hone. Qed.

(** One call keeps the limit where it is and the active list within it. *)
Lemma step_bound (c : Call) (s : State) :
  queue_call c ->
  MAX_CONCURRENCY (step filter c s) = MAX_CONCURRENCY s /\
  (Z.of_nat (length (activeTasks s)) <= MAX_CONCURRENCY s ->
   Z.of_nat (length (activeTasks (step filter c s))) <= MAX_CONCURRENCY s).
Proof.
  destruct c as [task|item| | |value| |]; simpl; try done; intros _.
  - destruct (enqueue_lists task s) as (_ & -> & ->). done.
  - destruct (completeTask_lists item s) as (_ & -> & Hact).
    split; [done|]. destruct (list_find _ _) as [[i x]|]; rewrite Hact; [|done].
    intros Hle. rewrite delete_take_drop, length_app, length_take, length_drop. lia.
  - unfold reActivation. destruct (fireActiveTask_lists s) as (_ & -> & ->). done.
  - destruct (timers s) as [|n]; [done|].
    destruct (queueLoop_lists (set_timers n s)) as (_ & -> & Hle). done.
Qed.

(** One call moves tasks between the lists without losing or copying
    one: what was in the lists plus what the call enqueues is what is in
    the lists now plus what the call completes. *)
Lemma step_tasks (c : Call) (s : State) :
  queue_call c ->
  activeTasks s ++ eventQueue s ++ enqueued_by c
  ≡ₚ completed_by filter c s ++ activeTasks (step filter c s) ++ eventQueue (step filter c s).
Proof.
  destruct c as [task|item| | |value| |]; simpl; try done; intros _.
  - destruct (enqueue_lists task s) as (-> & -> & _). done.
  - destruct (completeTask_lists item s) as (-> & _ & Hact).
    rewrite app_nil_r.
    destruct (list_find _ _) as [[i x]|] eqn:Hfind; rewrite Hact; [|done].
    apply list_find_Some in Hfind as (Hi & _ & _).
    simpl. by rewrite (delete_Permutation _ _ _ Hi) at 1.
  - unfold reActivation. destruct (fireActiveTask_lists s) as (-> & -> & _).
    by rewrite app_nil_r.
  - by rewrite app_nil_r.
  - rewrite app_nil_r. destruct (timers s) as [|n]; [done|].
    destruct (queueLoop_lists (set_timers n s)) as (Happ & _). by rewrite Happ.
Qed.

Lemma run_bound (cs : list Call) (s : State) :
  Forall (fun c => Is_true (queue_call c)) cs ->
  MAX_CONCURRENCY (run filter cs s) = MAX_CONCURRENCY s /\
  (Z.of_nat (length (activeTasks s)) <= MAX_CONCURRENCY s ->
   Z.of_nat (length (activeTasks (run filter cs s))) <= MAX_CONCURRENCY s).
Proof.
  intros Hcs. revert s. induction Hcs as [|c cs Hc _ IH]; intros s; simpl; [done|].
  destruct (step_bound c s Hc) as [Hmax Hle].
  destruct (IH (step filter c s)) as [Hmax' Hle'].
  rewrite Hmax in *. auto.
Qed.

Lemma run_tasks (cs : list Call) (s : State) :
  Forall (fun c => Is_true (queue_call c)) cs ->
  activeTasks s ++ eventQueue s ++ enqueued cs
  ≡ₚ completed filter cs s ++ activeTasks (run filter cs s) ++ eventQueue (run filter cs s).
Proof.
  intros Hcs. revert s. induction Hcs as [|c cs Hc _ IH]; intros s; simpl.
  - by rewrite app_nil_r.
  - rewrite <- (app_assoc (completed_by _ _ _)), <- (IH (step filter c s)).
    rewrite !app_assoc. f_equiv.
    rewrite <- !app_assoc. by apply step_tasks.
Qed.

(** C1. A queue is made with the limit at a positive [max] and receives
    any sequence of [enqueue], [completeTask] and [reActivation] calls,
    listener subscriptions and timer callbacks, the limit staying at
    [max].  Then (and so after every prefix of the sequence) the active
    list is at most [max] long, and the tasks enqueued are, counted with
    repetitions, the tasks completed, the active tasks and the pending
    tasks.  When no task was enqueued twice, the tasks enqueued and not
    completed are those of the two lists, and none is in both. *)
Theorem active_within_limit_and_tasks_in_one_list (max : Z) (cs : list Call) :
  0 < max ->
  Forall (fun c => Is_true (queue_call c)) cs ->
  Z.of_nat (length (activeTasks (run filter cs (construct max)))) <= max /\
  enqueued cs ≡ₚ completed filter cs (construct max)
                 ++ activeTasks (run filter cs (construct max))
                 ++ eventQueue (run filter cs (construct max)) /\
  (NoDup (enqueued cs) ->
   forall t : T,
     (t ∈ enqueued cs /\ t ∉ completed filter cs (construct max)
      <-> t ∈ activeTasks (run filter cs (construct max))
          \/ t ∈ eventQueue (run filter cs (construct max))) /\
     ~ (t ∈ activeTasks (run filter cs (construct max))
        /\ t ∈ eventQueue (run filter cs (construct max)))).
Proof.
  intros Hmax Hcs.
  destruct (run_bound cs (construct max) Hcs) as [_ Hle].
  pose proof (run_tasks cs (construct max) Hcs) as Hperm. simpl in Hperm, Hle.
  split_and!; [lia | done |].
  intros Hnodup t. rewrite Hperm in Hnodup.
  apply NoDup_app in Hnodup as (_ & Hdone & Hlists).
  apply NoDup_app in Hlists as (_ & Hone & _).
  rewrite Hperm, !elem_of_app.
  split; [split|].
  - intros [[?|?] ?]; tauto.
  - intros Hin. split; [tauto|].
    intros Hc. apply (Hdone t Hc). rewrite elem_of_app. tauto.
  - intros [Hact Hpend]. exact (Hone t Hact Hpend).
Qed.

(** A descriptor that matches some active task removes one task. *)
Lemma completeTask_match (item : P) (s : State) :
  (exists t, t ∈ activeTasks s /\ filter item t = true) ->
  length (activeTasks (completeTask filter item s)) = (length (activeTasks s) - 1)%nat.
Proof.
  intros (t & Hin & Hmatch).
  destruct (completeTask_lists item s) as (_ & _ & Hdel).
  destruct (list_find _ _) as [[i x]|] eqn:Hfind.
  - apply list_find_Some in Hfind as (Hi & _ & _).
    rewrite Hdel. apply length_delete. by exists x.
  - apply list_find_None in Hfind.
    rewrite Forall_forall in Hfind. destruct (Hfind t Hin). by rewrite Hmatch.
Qed.

(** Once the active list is empty, [completeTask] calls leave it
    empty. *)
Lemma completeTask_run_empty (descriptors : list P) (s : State) :
  activeTasks s = [] -> activeTasks (run filter (CompleteTask <$> descriptors) s) = [].
Proof.
  revert s. induction descriptors as [|d ds IH]; intros s Hact; [done|].
  change (run filter (CompleteTask <$> d :: ds) s)
    with (run filter (CompleteTask <$> ds) (completeTask filter d s)).
  apply IH. destruct (completeTask_lists d s) as (_ & _ & Hdel).
  rewrite Hact in Hdel. simpl in Hdel. by rewrite Hdel.
Qed.

(** As long as [completeTask] calls leave a task active, they schedule
    no dispatch cycle, fire nothing, and leave the pending list and the
    dispatching flag alone. *)
Lemma completeTask_run_while_active (descriptors : list P) (s : State) :
  activeTasks (run filter (CompleteTask <$> descriptors) s) <> [] ->
  timers (run filter (CompleteTask <$> descriptors) s) = timers s /\
  delivered (run filter (CompleteTask <$> descriptors) s) = delivered s /\
  eventQueue (run filter (CompleteTask <$> descriptors) s) = eventQueue s /\
  isDispatching (run filter (CompleteTask <$> descriptors) s) = isDispatching s.
Proof.
  revert s. induction descriptors as [|d ds IH]; intros s Hactive; [done|].
  change (run filter (CompleteTask <$> d :: ds) s)
    with (run filter (CompleteTask <$> ds) (completeTask filter d s)) in *.
  destruct (IH _ Hactive) as (-> & -> & -> & ->).
  destruct (completeTask_fields d s) as (_ & _ & Hdel & Hdisp & Htim).
  destruct (completeTask_lists d s) as (Hq & _).
  destruct (activeTasks (completeTask filter d s)) as [|t rest] eqn:Hact.
  - destruct Hactive. by apply completeTask_run_empty.
  - simpl in Hdisp, Htim. done.
Qed.

(** Descriptors that match the active tasks one by one, in order: after
    the first [n] of them the first [n] active tasks are gone. *)
Lemma completeTask_in_order_prefix (items : list P) (n : nat) (s : State) :
  Forall2 (fun i t => filter i t = true) items (activeTasks s) ->
  activeTasks (run filter (CompleteTask <$> take n items) s) = drop n (activeTasks s).
Proof.
  revert items s. induction n as [|n IH]; intros items s Hall; [by rewrite take_0|].
  destruct items as [|item items].
  - apply Forall2_nil_inv_l in Hall. by rewrite Hall.
  - destruct (activeTasks s) as [|t rest] eqn:Hact.
    { by apply Forall2_nil_inv_r in Hall. }
    apply Forall2_cons_1 in Hall as [Hmatch Hrest].
    pose proof (completeTask_head item s t rest Hact Hmatch) as Hact'.
    change (run filter (CompleteTask <$> take (S n) (item :: items)) s)
      with (run filter (CompleteTask <$> take n items) (completeTask filter item s)).
    rewrite IH by by rewrite Hact'. by rewrite Hact'.
Qed.

(** C2, amended.  A fresh queue under the default limit of 5 has a
    listener; seven tasks are enqueued and the dispatch cycle runs.  The
    first activation event carries the first five tasks and two are
    pending.  After one [completeTask] that matches an active task no
    event is fired, four tasks are active and the same two are pending.
    The same holds after any [completeTask] calls that leave a task
    active, as after two, three or four completions: no dispatch cycle
    is scheduled, no event is fired and the two tasks stay pending.
    Only the calls that remove all five active tasks schedule a cycle;
    its event carries the two remaining tasks and none is pending. *)
Theorem seven_tasks_under_limit_five (ts : list T) (item : P) (items : list P) :
  length ts = 7%nat ->
  (exists t, t ∈ take 5 ts /\ filter item t = true) ->
  Forall2 (fun i t => filter i t = true) items (take 5 ts) ->
  let s1 := flushTimers filter (run filter (OnTaskActivation :: (Enqueue <$> ts)) fresh) in
  let s2 := flushTimers filter (completeTask filter item s1) in
  let s3 := flushTimers filter (run filter (CompleteTask <$> items) s1) in
  (delivered s1 = [take 5 ts] /\ activeTasks s1 = take 5 ts /\ eventQueue s1 = drop 5 ts) /\
  (delivered s2 = delivered s1 /\ length (activeTasks s2) = 4%nat
   /\ eventQueue s2 = drop 5 ts) /\
  (forall descriptors : list P,
     activeTasks (run filter (CompleteTask <$> descriptors) s1) <> [] ->
     timers (run filter (CompleteTask <$> descriptors) s1) = 0%nat
     /\ delivered (flushTimers filter (run filter (CompleteTask <$> descriptors) s1))
        = delivered s1
     /\ eventQueue (flushTimers filter (run filter (CompleteTask <$> descriptors) s1))
        = drop 5 ts) /\
  (forall n, (n < 5)%nat ->
     activeTasks (run filter (CompleteTask <$> take n items) s1) = drop n (take 5 ts)
     /\ activeTasks (run filter (CompleteTask <$> take n items) s1) <> []) /\
  (timers (run filter (CompleteTask <$> items) s1) = 1%nat
   /\ delivered s3 = [take 5 ts; drop 5 ts] /\ activeTasks s3 = drop 5 ts
   /\ eventQueue s3 = []).
Proof.
  intros Hlen Hone Hall.
  destruct ts as [|t1 [|t2 [|t3 [|t4 [|t5 [|t6 [|t7 [|]]]]]]]]; try discriminate Hlen.
  intros s1.
  assert (Hs1 : delivered s1 = [[t1; t2; t3; t4; t5]]
                /\ activeTasks s1 = [t1; t2; t3; t4; t5]
                /\ eventQueue s1 = [t6; t7]
                /\ timers s1 = 0%nat /\ isLoopScheduled s1 = false
                /\ MAX_CONCURRENCY s1 = 5
                /\ hasListeners (_onTaskActivation s1) = true)
    by (vm_compute; done).
  destruct Hs1 as (Hd1 & Ha1 & Hq1 & Ht1 & Hl1 & Hm1 & Hh1).
  clearbody s1. simpl take in *. simpl drop in *.
  rewrite <- Ha1 in Hone, Hall.
  intros s2 s3.
  destruct (completeTask_in_order items s1 Hall)
    as (Ha & Hq & Hm & Hl & He & Hd & _ & Ht); [by rewrite Ha1|].
  rewrite Hq1 in Ht. simpl in Ht.
  split_and!; try done.
  (* one completion: four tasks stay active, so no timer is set *)
  1-3: pose proof (completeTask_match item s1 Hone) as Hfour;
       destruct (completeTask_fields item s1) as (_ & _ & Hd2 & _ & Ht2);
       destruct (completeTask_lists item s1) as (Hq2 & _);
       rewrite Hfour, Ha1 in Ht2; simpl in Ht2;
       subst s2; rewrite flushTimers_none by congruence.
  1-3: rewrite ?Hfour, ?Ha1; first [congruence | reflexivity].
  (* while a task is active: nothing is scheduled *)
  - intros descriptors Hactive.
    destruct (completeTask_run_while_active descriptors s1 Hactive)
      as (Htim & Hdel & Hpend & _).
    rewrite flushTimers_none by congruence. split_and!; congruence.
  (* the first n < 5 completions leave 5 - n tasks active *)
  - intros n Hn. rewrite (completeTask_in_order_prefix items n s1 Hall), Ha1.
    split; [done|].
    do 5 (destruct n as [|n]; [done|]). lia.
  (* all five completed: one timer is set, and its cycle fires *)
  - congruence.
  - subst s3; rewrite flushTimers_one by congruence.
    set (s := set_timers 0 _).
    assert (Hidle : isLoopScheduled s = false) by (subst s; simpl; congruence).
    destruct (queueLoop_output s Hidle) as [Hout _].
    destruct (queueLoop_fields s Hidle) as (Hpend & Hact & _).
    rewrite Hout, Hact; subst s; simpl.
    rewrite ?He, ?Hh1, ?Hd, ?Hd1, ?Hm, ?Hm1, ?Hq, ?Hq1, ?Ha; done.
  - subst s3; rewrite flushTimers_one by congruence.
    set (s := set_timers 0 _).
    assert (Hidle : isLoopScheduled s = false) by (subst s; simpl; congruence).
    destruct (queueLoop_fields s Hidle) as (Hpend & Hact & _).
    rewrite Hact; subst s; simpl.
    rewrite ?Hm, ?Hm1, ?Hq, ?Hq1, ?Ha; done.
  - subst s3; rewrite flushTimers_one by congruence.
    set (s := set_timers 0 _).
    assert (Hidle : isLoopScheduled s = false) by (subst s; simpl; congruence).
    destruct (queueLoop_fields s Hidle) as (Hpend & Hact & _).
    rewrite Hpend; subst s; simpl.
    rewrite ?Hm, ?Hm1, ?Hq, ?Hq1, ?Ha; done.
Qed.

(** The flags and the environment after [enqueue]. *)
Lemma enqueue_fields (task : T) (s : State) :
  isLoopScheduled (enqueue task s) = isLoopScheduled s /\
  _onTaskActivation (enqueue task s) = _onTaskActivation s /\
  delivered (enqueue task s) = delivered s /\
  isDispatching (enqueue task s) = true /\
  timers (enqueue task s) = (if isDispatching s then timers s else S (timers s)).
Proof.
  unfold enqueue. simpl.
  destruct (isDispatching s) eqn:Hdispatching; simpl; rewrite ?Hdispatching; done.
Qed.

Lemma fired_since_app (s s' : State) (evs : list (list T)) :
  delivered s' = delivered s ++ evs -> fired_since s s' = evs.
Proof. intros Hd. unfold fired_since. rewrite Hd. apply drop_app_length. Qed.

(** C3, amended.  In a state where a dispatch cycle is due (one is
    waiting in the timer queue, or [isDispatching] is false so that
    [enqueue] schedules one), no loop is running, a listener is
    attached and the active and the pending tasks together are fewer
    than the limit, a task passed to [enqueue] is carried by the event
    the next dispatch cycle fires; no [completeTask] call is needed. *)
Theorem enqueue_with_cycle_due_is_admitted (s : State) (task : T) :
  isDispatching s = false \/ (0 < timers s)%nat ->
  isLoopScheduled s = false ->
  hasListeners (_onTaskActivation s) = true ->
  Z.of_nat (length (activeTasks s) + length (eventQueue s)) < MAX_CONCURRENCY s ->
  (0 < timers (enqueue task s))%nat /\
  (isDispatching s = false -> timers (enqueue task s) = S (timers s)) /\
  fired_since s (step filter Timeout (enqueue task s))
    = [activeTasks s ++ eventQueue s ++ [task]] /\
  task ∈ activeTasks s ++ eventQueue s ++ [task].
Proof.
  intros Hdue Hloop Hlistener Hroom.
  destruct (enqueue_fields task s) as (Hl & He & Hd & _ & Ht).
  destruct (enqueue_lists task s) as (Hq & Ha & Hm).
  assert (Hwaiting : (0 < timers (enqueue task s))%nat).
  { rewrite Ht. destruct (isDispatching s); [|lia]. by destruct Hdue. }
  split_and!; [done | by intros Hidle; rewrite Ht, Hidle |
               | rewrite !elem_of_app, list_elem_of_singleton; auto].
  simpl. destruct (timers (enqueue task s)) as [|n] eqn:Hn; [lia|].
  set (s' := set_timers _ _).
  assert (Hl' : isLoopScheduled s' = false) by (subst s'; simpl; congruence).
  destruct (queueLoop_output s' Hl') as [Hout _].
  destruct (queueLoop_fields s' Hl') as (_ & Hact & _).
  apply fired_since_app.
  rewrite Hout, Hact. subst s'. simpl.
  rewrite He, Hlistener, Hd, Hm, Hq, Ha, queueLoop_while_spec. simpl.
  rewrite take_ge; [done|]. rewrite length_app. simpl. lia.
Qed.

(** C4.  When [filter] matches the descriptor with no active task,
    [completeTask] returns (the model has no other outcome) with both
    lists as they were and one more log entry, of error severity; no
    callback leaves the timer queue and the loop flag is unchanged, so a
    dispatch cycle under way or scheduled goes on. *)
Theorem completeTask_without_match (item : P) (s : State) :
  Forall (fun t => filter item t = false) (activeTasks s) ->
  activeTasks (completeTask filter item s) = activeTasks s /\
  eventQueue (completeTask filter item s) = eventQueue s /\
  logger (completeTask filter item s)
    = logger s ++ [mkLog SevError "task not found:" (ArgItem item)] /\
  isLoopScheduled (completeTask filter item s) = isLoopScheduled s /\
  (timers s <= timers (completeTask filter item s))%nat /\
  delivered (completeTask filter item s) = delivered s.
Proof.
  intros Hmiss.
  assert (Hidx : findIndex (filter item) (activeTasks s) = -1).
  { unfold findIndex.
    destruct (list_find _ _) as [[i x]|] eqn:Hfind; [|done].
    apply list_find_Some in Hfind as (Hi & Hx & _).
    apply list_elem_of_lookup_2 in Hi.
    rewrite Forall_forall in Hmiss. rewrite (Hmiss x Hi) in Hx. done. }
  unfold completeTask. rewrite Hidx. simpl.
  repeat (case_bool_decide; simpl); split_and!; auto; lia.
Qed.

(** A call that attaches no listener leaves a queue without listeners
    without listeners, and hands nothing out. *)
Lemma step_without_listener (c : Call) (s : State) :
  attaches_no_listener c ->
  hasListeners (_onTaskActivation s) = false ->
  hasListeners (_onTaskActivation (step filter c s)) = false /\
  delivered (step filter c s) = delivered s.
Proof.
  destruct c as [task|item| | |value| |]; simpl; try done; intros _ Hnone.
  - destruct (enqueue_fields task s) as (_ & -> & -> & _). done.
  - destruct (completeTask_fields item s) as (_ & -> & -> & _). done.
  - unfold reActivation, fireActiveTask. by rewrite Hnone.
  - destruct (timers s) as [|n]; [done|].
    destruct (isLoopScheduled s) eqn:Hloop.
    + by rewrite queueLoop_running.
    + destruct (queueLoop_output (set_timers n s) Hloop) as [-> _].
      destruct (queueLoop_fields (set_timers n s) Hloop) as (_ & _ & _ & _ & _ & -> & _).
      simpl. by rewrite Hnone.
Qed.

(** C5, amended.  [destroy] empties both lists and leaves no listener.
    Whatever calls follow, as long as none attaches a listener, no
    activation event is handed out (and every call returns: the model
    has no other outcome).  The lists do not stay empty: [enqueue] on a
    destroyed queue appends the task to the pending list as before. *)
Theorem destroyed_queue_fires_nothing (s : State) (cs : list Call) :
  Forall (fun c => Is_true (attaches_no_listener c)) cs ->
  (eventQueue (destroy s) = [] /\ activeTasks (destroy s) = []
   /\ hasListeners (_onTaskActivation (destroy s)) = false) /\
  delivered (run filter cs (destroy s)) = delivered s /\
  (forall task, eventQueue (enqueue task (destroy s)) = [task]).
Proof.
  intros Hcs. split_and!; try done.
  - change (delivered s) with (delivered (destroy s)).
    assert (Hnone : hasListeners (_onTaskActivation (destroy s)) = false) by done.
    revert Hnone. generalize (destroy s). clear s.
    induction Hcs as [|c cs Hc _ IH]; intros s Hnone; simpl; [done|].
    destruct (step_without_listener c s Hc Hnone) as [Hnone' <-]. by apply IH.
  - intros task. by destruct (enqueue_lists task (destroy s)) as (-> & _).
Qed.

(** C6.  When [fireActiveTask] runs with no listener attached, it
    returns with one more log entry, of error severity, nothing handed
    out, and the lists, the flags and the timers as they were: the
    active tasks stay active.  A dispatch cycle that runs so still
    admits the pending tasks under the limit, and it lowers the loop
    flag when it ends, so later cycles run. *)
Theorem activation_without_listener (s : State) :
  hasListeners (_onTaskActivation s) = false ->
  (logger (fireActiveTask s)
     = logger s ++
       [mkLog SevError
          "Severity error !!!!!! No listener for active task, task will be completed"
          (ArgTasks (activeTasks s))]
   /\ delivered (fireActiveTask s) = delivered s
   /\ activeTasks (fireActiveTask s) = activeTasks s
   /\ eventQueue (fireActiveTask s) = eventQueue s
   /\ isDispatching (fireActiveTask s) = isDispatching s
   /\ isLoopScheduled (fireActiveTask s) = isLoopScheduled s
   /\ timers (fireActiveTask s) = timers s) /\
  (isLoopScheduled s = false ->
   activeTasks (queueLoop s)
     = activeTasks s
       ++ take (Z.to_nat (MAX_CONCURRENCY s - Z.of_nat (length (activeTasks s))))
               (eventQueue s)
   /\ eventQueue (queueLoop s)
     = drop (Z.to_nat (MAX_CONCURRENCY s - Z.of_nat (length (activeTasks s))))
            (eventQueue s)
   /\ severity <$> last (logger (queueLoop s)) = Some SevError
   /\ delivered (queueLoop s) = delivered s
   /\ isLoopScheduled (queueLoop s) = false).
Proof.
  intros Hnone. split.
  - unfold fireActiveTask. rewrite Hnone. done.
  - intros Hloop.
    destruct (queueLoop_output s Hloop) as [-> ->].
    destruct (queueLoop_fields s Hloop) as (-> & -> & _ & _ & -> & _).
    rewrite Hnone, queueLoop_while_spec, last_snoc. done.
Qed.

(** C7.  The limit of a queue made at program start is 5.
    [changeConcurrency] sets the limit and nothing else: no task leaves
    the active list, whatever the new value.  The next dispatch cycle
    admits against the new value: it fills the active list up to it, and
    when the new value is at or below the number of active tasks it
    admits none and removes none. *)
Theorem changeConcurrency_applies_to_next_cycle (value : Z) (s : State) :
  MAX_CONCURRENCY (fresh : State) = 5 /\
  (MAX_CONCURRENCY (changeConcurrency value s) = value
   /\ activeTasks (changeConcurrency value s) = activeTasks s
   /\ eventQueue (changeConcurrency value s) = eventQueue s
   /\ timers (changeConcurrency value s) = timers s
   /\ delivered (changeConcurrency value s) = delivered s) /\
  (isLoopScheduled s = false ->
   activeTasks (queueLoop (changeConcurrency value s))
     = activeTasks s
       ++ take (Z.to_nat (value - Z.of_nat (length (activeTasks s)))) (eventQueue s)
   /\ eventQueue (queueLoop (changeConcurrency value s))
     = drop (Z.to_nat (value - Z.of_nat (length (activeTasks s)))) (eventQueue s)) /\
  (value <= Z.of_nat (length (activeTasks s)) ->
   activeTasks (queueLoop (changeConcurrency value s)) = activeTasks s
   /\ eventQueue (queueLoop (changeConcurrency value s)) = eventQueue s).
Proof.
  split_and!; try done.
  - intros Hloop.
    destruct (queueLoop_fields (changeConcurrency value s) Hloop) as (-> & -> & _).
    by rewrite queueLoop_while_spec.
  - intros Hlow. destruct (isLoopScheduled s) eqn:Hloop.
    + by rewrite queueLoop_running.
    + destruct (queueLoop_fields (changeConcurrency value s) Hloop) as (-> & -> & _).
      rewrite queueLoop_while_spec. simpl.
      replace (Z.to_nat _) with 0%nat by lia. simpl. by rewrite app_nil_r.
Qed.

(** C8.  [reActivation] is one [fireActiveTask]: the listeners, when
    there are any, are handed the current active list; the pending list,
    the active list, both flags, the limit, the listeners and the timers
    are after the call what they were before. *)
Theorem reActivation_changes_no_state (s : State) :
  reActivation s = fireActiveTask s /\
  delivered (reActivation s)
    = (if hasListeners (_onTaskActivation s)
       then delivered s ++ [activeTasks s] else delivered s) /\
  eventQueue (reActivation s) = eventQueue s /\
  activeTasks (reActivation s) = activeTasks s /\
  isDispatching (reActivation s) = isDispatching s /\
  isLoopScheduled (reActivation s) = isLoopScheduled s /\
  MAX_CONCURRENCY (reActivation s) = MAX_CONCURRENCY s /\
  _onTaskActivation (reActivation s) = _onTaskActivation s /\
  timers (reActivation s) = timers s.
Proof.
  unfold reActivation, fireActiveTask.
  destruct (hasListeners _); simpl; split_and!; done.
Qed.

End EventQueueFacts.

Lemma active_within_limit_and_tasks_in_one_list_witness :
  Z.of_nat (length (activeTasks (run same_number
     [OnTaskActivation; Enqueue 1; Enqueue 2; Timeout; CompleteTask 1; ReActivation]%nat
     (construct 5)))) <= 5.
Proof.
  apply (active_within_limit_and_tasks_in_one_list same_number 5
           [OnTaskActivation; Enqueue 1; Enqueue 2; Timeout; CompleteTask 1; ReActivation]%nat).
  - lia.
  - repeat constructor.
Defined.

(** ** The theorems at concrete queues *)

Lemma seven_tasks_under_limit_five_witness :
  timers (run same_number (CompleteTask <$> [1; 2; 3]%nat) first_cycle) = 0%nat /\
  delivered (flushTimers same_number
               (run same_number (CompleteTask <$> [1; 2; 3; 4; 5]%nat) first_cycle))
  = [[1; 2; 3; 4; 5]; [6; 7]]%nat.
Proof.
  destruct (seven_tasks_under_limit_five same_number seven_tasks 3%nat
              [1; 2; 3; 4; 5]%nat) as (_ & _ & Hactive & _ & _ & Hall & _).
  - reflexivity.
  - exists 3%nat. split; [|reflexivity]. simpl. rewrite !elem_of_cons. auto.
  - simpl. repeat constructor.
  - split; [|exact Hall].
    by destruct (Hactive [1; 2; 3]%nat) as (Hnone & _).
Defined.

(** C2, as stated, fails on the scenario: after task 3 is completed and
    the timers have run, no event has been fired since the first one,
    four tasks are active and two are still pending; an event asked for
    with [reActivation] carries the four. *)
Lemma one_completion_admits_no_task :
  delivered first_cycle = [[1; 2; 3; 4; 5]]%nat /\
  eventQueue first_cycle = [6; 7]%nat /\
  timers (completeTask same_number 3%nat first_cycle) = 0%nat /\
  fired_since first_cycle after_one_completion = [] /\
  activeTasks after_one_completion = [1; 2; 4; 5]%nat /\
  eventQueue after_one_completion = [6; 7]%nat /\
  fired_since first_cycle (reActivation after_one_completion) = [[1; 2; 4; 5]]%nat.
Proof. split_and!; reflexivity. Qed.

Lemma enqueue_with_cycle_due_is_admitted_witness :
  fired_since (enqueue 1%nat (step same_number OnTaskActivation fresh))
    (step same_number Timeout
       (enqueue 2%nat (enqueue 1%nat (step same_number OnTaskActivation fresh))))
  = [[1; 2]%nat].
Proof.
  destruct (enqueue_with_cycle_due_is_admitted same_number
              (enqueue 1%nat (step same_number OnTaskActivation fresh)) 2%nat)
    as (_ & _ & Hfired & _).
  - right. vm_compute. lia.
  - reflexivity.
  - reflexivity.
  - vm_compute. reflexivity.
  - exact Hfired.
Defined.

(** C3, as stated, fails: one task is active under a limit of 5 and a
    second is enqueued.  No dispatch cycle is scheduled and none fires;
    the event [reActivation] fires next carries task 1 only, and task 2
    is pending until task 1 is completed. *)
Lemma enqueue_below_limit_is_not_admitted :
  Z.of_nat (length (activeTasks one_active)) < MAX_CONCURRENCY one_active /\
  timers (enqueue 2%nat one_active) = 0%nat /\
  fired_since one_active (flushTimers same_number (enqueue 2%nat one_active)) = [] /\
  fired_since one_active (reActivation (enqueue 2%nat one_active)) = [[1%nat]] /\
  eventQueue (reActivation (enqueue 2%nat one_active)) = [2%nat] /\
  fired_since one_active
    (flushTimers same_number (completeTask same_number 1%nat (enqueue 2%nat one_active)))
  = [[2%nat]].
Proof. split_and!; reflexivity. Qed.

Lemma completeTask_without_match_witness :
  activeTasks (completeTask same_number 2%nat one_active) = activeTasks one_active /\
  eventQueue (completeTask same_number 2%nat one_active) = eventQueue one_active /\
  logger (completeTask same_number 2%nat one_active)
    = logger one_active ++ [mkLog SevError "task not found:" (ArgItem 2%nat)] /\
  isLoopScheduled (completeTask same_number 2%nat one_active) = isLoopScheduled one_active /\
  (timers one_active <= timers (completeTask same_number 2%nat one_active))%nat /\
  delivered (completeTask same_number 2%nat one_active) = delivered one_active.
Proof.
  apply (completeTask_without_match same_number 2%nat one_active).
  repeat constructor.
Defined.

Lemma destroyed_queue_fires_nothing_witness :
  delivered (run same_number [Enqueue 2; Timeout; CompleteTask 2; ReActivation]%nat
               (destroy one_active))
  = delivered one_active.
Proof.
  apply (destroyed_queue_fires_nothing same_number one_active
           [Enqueue 2; Timeout; CompleteTask 2; ReActivation]%nat).
  repeat constructor.
Defined.

(** C5, as stated, fails: after [destroy], [enqueue] puts the task on
    the pending list, and the dispatch cycle it schedules moves the task
    to the active list. *)
Lemma destroyed_queue_still_enqueues :
  eventQueue (enqueue 2%nat (destroy one_active)) = [2%nat] /\
  timers (enqueue 2%nat (destroy one_active)) = 0%nat /\
  eventQueue (enqueue 1%nat (destroy (fresh : State nat nat))) = [1%nat] /\
  activeTasks (flushTimers same_number (enqueue 1%nat (destroy (fresh : State nat nat))))
  = [1%nat].
Proof. split_and!; reflexivity. Qed.

Lemma activation_without_listener_witness :
  delivered (fireActiveTask (enqueue 1%nat (fresh : State nat nat)))
  = delivered (enqueue 1%nat (fresh : State nat nat)).
Proof.
  destruct (activation_without_listener (enqueue 1%nat (fresh : State nat nat)))
    as [(_ & Hnothing & _) _]; [reflexivity | exact Hnothing].
Defined.

(** * Properties of the schema columns *)

Section SchemaFacts.

Variable StringToNumber : string -> Schema.JsNumber.
Variable NumberToString : Z -> string.

#[local] Abbreviation verify := (Schema.verify StringToNumber NumberToString).

(** [super.verify] has the message for a required column and a missing
    value, and only then. *)
Lemma ColumnType_verify_required (this : Schema.ColumnType) (value : Schema.Value) :
  "value is required" ∈ Schema.ColumnType_verify this value
  <-> Schema._required this = true
      /\ (value = Schema.VUndefined \/ value = Schema.VNull).
Proof.
  unfold Schema.ColumnType_verify, Schema.push.
  destruct (Schema._required this), value; simpl;
    rewrite ?list_elem_of_singleton, ?elem_of_nil; intuition congruence.
Qed.

(** The boolean and date columns return for every value. *)
Lemma verify_boolean_returns this d (value : Schema.Value) :
  exists messages, verify (Schema.ColumnBoolean this d) value = Schema.Normal messages.
Proof. simpl. unfold Schema.ColumnBoolean_verify. eauto. Qed.

Lemma verify_date_returns this (value : Schema.Value) :
  exists messages, verify (Schema.ColumnDate this) value = Schema.Normal messages.
Proof. simpl. eauto. Qed.

(** C9, the failing input.  [text().max(10).verify(null)]: the required
    check and the type check push their messages, then [value.length]
    is read from [null] and the call throws; no list of messages is
    returned.  The same happens behind the optional wrapper with
    [undefined].  The integer column, on the same input, returns its
    messages. *)
Theorem verify_text_with_bound_throws_on_null :
  verify (Schema.max 10 Schema.text) Schema.VNull
  = Schema.Throw (Schema.TypeError "Cannot read properties of null (reading 'length')") /\
  verify (Schema.optional (Schema.min 1 Schema.text)) Schema.VUndefined
  = Schema.Throw (Schema.TypeError "Cannot read properties of undefined (reading 'length')") /\
  verify (Schema.max 10 Schema.integer) Schema.VNull
  = Schema.Normal ["value is required"; "value must be number"].
Proof. split_and!; reflexivity. Qed.

(** C10.  [genCreateSql] throws, with the message about AUTOINCREMENT,
    exactly when the auto-increment flag is set and the primary flag is
    not.  Otherwise it returns the keywords of the flags that are set,
    and those only, in the order PRIMARY KEY, NOT NULL, UNIQUE,
    AUTOINCREMENT. *)
Theorem genCreateSql_keywords_of_flags (c : Schema.Column) :
  match Schema.genCreateSql c with
  | Schema.Throw e =>
      e = Schema.Error "AUTOINCREMENT can only be applied to a primary key"
      /\ Schema._autoIncrement (Schema.base_of c) = true
      /\ Schema._primary (Schema.base_of c) = false
  | Schema.Normal sql =>
      ~ (Schema._autoIncrement (Schema.base_of c) = true
         /\ Schema._primary (Schema.base_of c) = false)
      /\ sql = (if Schema._primary (Schema.base_of c) then ["PRIMARY KEY"] else [])
               ++ (if Schema._required (Schema.base_of c) then ["NOT NULL"] else [])
               ++ (if Schema._unique (Schema.base_of c) then ["UNIQUE"] else [])
               ++ (if Schema._autoIncrement (Schema.base_of c) then ["AUTOINCREMENT"] else [])
      /\ sql `sublist_of` ["PRIMARY KEY"; "NOT NULL"; "UNIQUE"; "AUTOINCREMENT"]
  end.
Proof.
  unfold Schema.genCreateSql, Schema.push.
  destruct (Schema.base_of c) as [[] [] [] []]; simpl;
    split_and!; try done; try (intros [? ?]; done);
    repeat first [apply sublist_nil | apply sublist_skip | apply sublist_cons].
Qed.

End SchemaFacts.

(** * Further properties of the EventQueue *)

Section EventQueueOrder.

Context {T P : Type}.
Variable filter : P -> T -> bool.

#[local] Abbreviation State := (State T P).
#[local] Abbreviation Call := (Call T P).

(** One call keeps the tasks of the two lists in the order they have,
    new tasks coming last. *)
Lemma step_order (c : Call) (s : State) :
  activeTasks (step filter c s) ++ eventQueue (step filter c s)
  `sublist_of` (activeTasks s ++ eventQueue s) ++ enqueued_by c.
Proof.
  destruct c as [task|item| | |value| |]; simpl; rewrite ?app_nil_r; try done.
  - destruct (enqueue_lists task s) as (-> & -> & _). by rewrite app_assoc.
  - destruct (completeTask_lists filter item s) as (-> & _ & Hact).
    destruct (list_find _ _) as [[i x]|]; rewrite Hact; [|done].
    apply sublist_app; [apply sublist_delete | done].
  - unfold reActivation. by destruct (fireActiveTask_lists s) as (-> & -> & _).
  - apply sublist_nil_l.
  - destruct (timers s) as [|n]; [done|].
    destruct (queueLoop_lists (set_timers n s)) as (-> & _). done.
Qed.

Lemma run_order (cs : list Call) (s : State) :
  activeTasks (run filter cs s) ++ eventQueue (run filter cs s)
  `sublist_of` (activeTasks s ++ eventQueue s) ++ enqueued cs.
Proof.
  revert s. induction cs as [|c cs IH]; intros s; simpl.
  - by rewrite app_nil_r.
  - etrans; [apply IH|]. rewrite app_assoc.
    apply sublist_app; [apply step_order | done].
Qed.

(** X1.  First in, first out: whatever calls a queue receives
    ([destroy] and [changeConcurrency] included), the active tasks
    followed by the pending tasks are tasks that were enqueued, in the
    order in which they were enqueued. *)
Theorem tasks_stay_in_enqueue_order (max : Z) (cs : list Call) :
  activeTasks (run filter cs (construct max)) ++ eventQueue (run filter cs (construct max))
  `sublist_of` enqueued cs.
Proof. apply (run_order cs (construct max)). Qed.

(** What one call hands to the listeners: nothing, or the active list
    as the call leaves it. *)
Lemma step_delivered (c : Call) (s : State) :
  delivered (step filter c s) = delivered s
  \/ delivered (step filter c s) = delivered s ++ [activeTasks (step filter c s)].
Proof.
  destruct c as [task|item| | |value| |]; simpl; auto.
  - destruct (enqueue_fields task s) as (_ & _ & -> & _). auto.
  - destruct (completeTask_fields filter item s) as (_ & _ & -> & _). auto.
  - unfold reActivation, fireActiveTask. destruct (hasListeners _); simpl; auto.
  - destruct (timers s) as [|n]; [auto|].
    destruct (isLoopScheduled s) eqn:Hloop.
    + rewrite queueLoop_running by done. auto.
    + destruct (queueLoop_output (set_timers n s) Hloop) as [-> _].
      destruct (hasListeners _); auto.
Qed.

(** X2.  With the limit held at [max], no activation event carries more
    than [max] tasks. *)
Theorem events_within_limit (max : Z) (cs : list Call) :
  0 <= max ->
  Forall (fun c => Is_true (queue_call c)) cs ->
  Forall (fun tasks : list T => Z.of_nat (length tasks) <= max)
         (delivered (run filter cs (construct max))).
Proof.
  intros Hmax Hcs.
  assert (Hinv : forall s : State,
    MAX_CONCURRENCY s = max ->
    Z.of_nat (length (activeTasks s)) <= max ->
    Forall (fun tasks : list T => Z.of_nat (length tasks) <= max) (delivered s) ->
    Forall (fun tasks : list T => Z.of_nat (length tasks) <= max)
           (delivered (run filter cs s))).
  { induction Hcs as [|c cs Hc _ IH]; intros s Hm Hact Hdel; simpl; [done|].
    destruct (step_bound filter c s Hc) as [Hm' Hact'].
    rewrite Hm in Hm', Hact'. specialize (Hact' Hact).
    apply IH; [done | done |].
    destruct (step_delivered c s) as [-> | ->]; [done|].
    apply Forall_app. split; [done|]. by apply Forall_singleton. }
  apply Hinv; simpl; [done | lia | constructor].
Qed.

(** X3.  The flag [isLoopScheduled] is down after every call, whatever
    the calls: the test at the head of [queueLoop] never skips a
    dispatch cycle that a timer starts. *)
Theorem loop_flag_is_down (max : Z) (cs : list Call) :
  isLoopScheduled (run filter cs (construct max)) = false.
Proof.
  assert (Hinv : forall s : State,
    isLoopScheduled s = false -> isLoopScheduled (run filter cs s) = false).
  { induction cs as [|c cs IH]; intros s Hdown; simpl; [done|].
    apply IH. destruct c as [task|item| | |value| |]; simpl; try done.
    - by destruct (enqueue_fields task s) as (-> & _).
    - by destruct (completeTask_fields filter item s) as (-> & _).
    - unfold reActivation, fireActiveTask. by destruct (hasListeners _).
    - destruct (timers s) as [|n]; [done|].
      by destruct (queueLoop_fields (set_timers n s) Hdown) as (_ & _ & _ & _ & -> & _). }
  by apply Hinv.
Qed.

End EventQueueOrder.

Lemma events_within_limit_witness :
  Forall (fun tasks : list nat => Z.of_nat (length tasks) <= 2)
    (delivered (run same_number
       (OnTaskActivation :: (Enqueue <$> seven_tasks) ++ [Timeout; ReActivation])
       (construct 2))).
Proof.
  apply (events_within_limit same_number 2
           (OnTaskActivation :: (Enqueue <$> seven_tasks) ++ [Timeout; ReActivation])).
  - lia.
  - simpl. repeat constructor.
Defined.

Section EventQueueProgress.

Context {T P : Type}.
Variable filter : P -> T -> bool.

#[local] Abbreviation State := (State T P).
#[local] Abbreviation Call := (Call T P).

Lemma step_scheduled (max : Z) (c : Call) (s : State) :
  0 < max -> queue_call c -> scheduled max s -> scheduled max (step filter c s).
Proof.
  intros Hmax Hc (Hm & Hdown & Hbusy & Hidle). unfold scheduled.
  destruct c as [task|item| | |value| |]; simpl; try done.
  - (* enqueue *)
    destruct (enqueue_fields task s) as (Hl & _ & _ & Hd & Ht).
    destruct (enqueue_lists task s) as (Hq & Ha & Hm').
    split_and!; [congruence | congruence | | congruence].
    intros _. rewrite Hq, Ha, Ht.
    destruct (isDispatching s).
    + destruct Hbusy as [?|[_ ?]]; [done | by left | right].
      split; [by destruct (eventQueue s) | done].
    + right. split; [by destruct (eventQueue s) | lia].
  - (* completeTask *)
    destruct (completeTask_fields filter item s) as (Hl & _ & _ & Hd & Ht).
    destruct (completeTask_lists filter item s) as (Hq & Hm' & _).
    rewrite Hq in *.
    destruct (activeTasks (completeTask filter item s)) as [|t rest] eqn:Hact;
      simpl in Hd, Ht.
    + split_and!; [congruence | congruence | congruence |].
      intros _ Hpending _. rewrite Ht.
      rewrite bool_decide_true; [lia|]. destruct (eventQueue s); [done | simpl; lia].
    + split_and!; [congruence | congruence | by left | done].
  - (* reActivation *)
    unfold reActivation, fireActiveTask. by destruct (hasListeners _).
  - (* a timer callback *)
    destruct (timers s) as [|n] eqn:Ht; [rewrite Ht; by split_and!|].
    destruct (queueLoop_fields (set_timers n s) Hdown)
      as (Hq & Ha & Hm' & Hd & Hl & _ & Ht').
    simpl in Hq, Ha, Hm', Hd, Ht'.
    rewrite queueLoop_while_spec in Hq, Ha. simpl in Hq, Ha. rewrite Hm in Hq, Ha.
    split_and!; [congruence | done | |].
    + rewrite Hd. intros Hdisp. left. rewrite Ha.
      destruct (Hbusy Hdisp) as [Hact | [Hpending _]].
      * by destruct (activeTasks s).
      * destruct (activeTasks s) as [|t rest]; [|done]. simpl.
        destruct (Z.to_nat _) as [|k] eqn:Hk; [simpl in Hk; lia|].
        by destruct (eventQueue s).
    + rewrite Hd, Hq, Ha, Ht'. intros _ Hpending Hact.
      apply app_eq_nil in Hact as [Hact Htake]. rewrite Hact in Hpending, Htake.
      assert (Hk : Z.to_nat (max - Z.of_nat (length (@nil T))) = S (Z.to_nat (max - 1)))
        by (simpl; lia).
      rewrite Hk in Hpending, Htake. by destruct (eventQueue s).
Qed.

(** X4.  A queue under a positive limit does not stall: whenever tasks
    are pending and none is active, a dispatch cycle is waiting in the
    timer queue. *)
Theorem pending_tasks_have_a_cycle_scheduled (max : Z) (cs : list Call) :
  0 < max ->
  Forall (fun c => Is_true (queue_call c)) cs ->
  eventQueue (run filter cs (construct max)) <> [] ->
  activeTasks (run filter cs (construct max)) = [] ->
  (0 < timers (run filter cs (construct max)))%nat.
Proof.
  intros Hmax Hcs.
  assert (Hinv : forall s : State, scheduled max s -> scheduled max (run filter cs s)).
  { induction Hcs as [|c cs Hc _ IH]; intros s Hs; simpl; [done|].
    by apply IH, step_scheduled. }
  destruct (Hinv (construct max)) as (_ & _ & Hbusy & Hidle).
  { by split_and!. }
  intros Hpending Hact.
  destruct (isDispatching (run filter cs (construct max))) eqn:Hdisp.
  - destruct Hbusy as [?|[_ ?]]; done.
  - by apply Hidle.
Qed.

(** X5.  A dispatch cycle uses the room there is: when it ends, no task
    is pending or the active list has reached the limit; and the tasks
    it admits are the first of the pending list, put after the active
    ones. *)
Theorem queueLoop_fills_the_active_list (s : State) :
  isLoopScheduled s = false ->
  (eventQueue (queueLoop s) = []
   \/ MAX_CONCURRENCY s <= Z.of_nat (length (activeTasks (queueLoop s)))) /\
  activeTasks (queueLoop s) ++ eventQueue (queueLoop s) = activeTasks s ++ eventQueue s /\
  (exists admitted, activeTasks (queueLoop s) = activeTasks s ++ admitted).
Proof.
  intros Hdown.
  destruct (queueLoop_fields s Hdown) as (Hq & Ha & _).
  rewrite queueLoop_while_spec in Hq, Ha. simpl in Hq, Ha.
  split_and!.
  - rewrite Hq, Ha, length_app, length_take.
    destruct (decide (length (eventQueue s)
                      <= Z.to_nat (MAX_CONCURRENCY s - Z.of_nat (length (activeTasks s))))%nat).
    + left. by apply drop_ge.
    + right. lia.
  - by destruct (queueLoop_lists s) as (-> & _).
  - eexists. exact Ha.
Qed.

(** X6.  A burst of [enqueue] calls on a queue whose dispatch is idle
    schedules one dispatch cycle, not one for each task; the tasks go to
    the end of the pending list in the order of the calls and the active
    list is not touched. *)
Theorem enqueue_burst_schedules_one_cycle (ts : list T) (s : State) :
  isDispatching s = false ->
  ts <> [] ->
  timers (run filter (Enqueue <$> ts) s) = S (timers s) /\
  eventQueue (run filter (Enqueue <$> ts) s) = eventQueue s ++ ts /\
  activeTasks (run filter (Enqueue <$> ts) s) = activeTasks s /\
  isDispatching (run filter (Enqueue <$> ts) s) = true.
Proof.
  assert (Hbusy : forall (ts : list T) (s : State),
    isDispatching s = true ->
    timers (run filter (Enqueue <$> ts) s) = timers s /\
    eventQueue (run filter (Enqueue <$> ts) s) = eventQueue s ++ ts /\
    activeTasks (run filter (Enqueue <$> ts) s) = activeTasks s /\
    isDispatching (run filter (Enqueue <$> ts) s) = true).
  { clear ts s. induction ts as [|t ts IH]; intros s Hd.
    - simpl. by rewrite app_nil_r.
    - change (run filter (Enqueue <$> t :: ts) s)
        with (run filter (Enqueue <$> ts) (enqueue t s)).
      destruct (enqueue_fields t s) as (_ & _ & _ & Hd' & Ht).
      destruct (enqueue_lists t s) as (Hq & Ha & _).
      destruct (IH (enqueue t s) Hd') as (-> & -> & -> & ->).
      rewrite Ht, Hd, Hq, Ha, <- app_assoc. done. }
  intros Hidle Hne. destruct ts as [|t ts]; [done|].
  change (run filter (Enqueue <$> t :: ts) s)
    with (run filter (Enqueue <$> ts) (enqueue t s)).
  destruct (enqueue_fields t s) as (_ & _ & _ & Hd' & Ht).
  destruct (enqueue_lists t s) as (Hq & Ha & _).
  destruct (Hbusy ts (enqueue t s) Hd') as (-> & -> & -> & ->).
  rewrite Ht, Hidle, Hq, Ha, <- app_assoc. done.
Qed.

(** X7.  [completeTask] removes one task, the first active task the
    descriptor matches: the tasks before it and after it stay, in
    order, also those after it that match as well. *)
Theorem completeTask_removes_first_match (item : P) (s : State)
    (before after : list T) (task : T) :
  activeTasks s = before ++ task :: after ->
  Forall (fun t => filter item t = false) before ->
  filter item task = true ->
  activeTasks (completeTask filter item s) = before ++ after /\
  eventQueue (completeTask filter item s) = eventQueue s /\
  severity <$> last (logger (completeTask filter item s)) = Some SevInfo.
Proof.
  intros Hact Hbefore Hmatch.
  assert (Hfind : list_find (fun t => Is_true (filter item t)) (activeTasks s)
                  = Some (length before, task)).
  { apply list_find_Some. rewrite Hact. split_and!.
    - by rewrite list_lookup_middle.
    - by rewrite Hmatch.
    - intros j y Hj Hlt. rewrite lookup_app_l in Hj by done.
      apply list_elem_of_lookup_2 in Hj.
      rewrite Forall_forall in Hbefore. rewrite (Hbefore y Hj). by intros []. }
  destruct (completeTask_lists filter item s) as (Hq & _ & Hdel).
  rewrite Hfind in Hdel. rewrite Hdel, Hact, delete_middle.
  split_and!; [done | done |].
  unfold completeTask, findIndex. rewrite Hfind.
  rewrite (bool_decide_true (Z.of_nat (length before) > -1)) by lia.
  simpl. by repeat case_bool_decide; simpl; rewrite last_snoc.
Qed.

End EventQueueProgress.

Lemma pending_tasks_have_a_cycle_scheduled_witness :
  (0 < timers (run same_number
                 [OnTaskActivation; Enqueue 1; Enqueue 2; Timeout; CompleteTask 1]%nat
                 (construct 1)))%nat.
Proof.
  apply (pending_tasks_have_a_cycle_scheduled same_number 1
           [OnTaskActivation; Enqueue 1; Enqueue 2; Timeout; CompleteTask 1]%nat).
  - lia.
  - repeat constructor.
  - discriminate.
  - reflexivity.
Defined.

Lemma queueLoop_fills_the_active_list_witness :
  activeTasks (queueLoop (enqueue 1%nat (fresh : State nat nat)))
  ++ eventQueue (queueLoop (enqueue 1%nat (fresh : State nat nat)))
  = activeTasks (enqueue 1%nat (fresh : State nat nat))
    ++ eventQueue (enqueue 1%nat (fresh : State nat nat)).
Proof.
  destruct (queueLoop_fills_the_active_list (enqueue 1%nat (fresh : State nat nat)))
    as (_ & Hsame & _); [reflexivity | exact Hsame].
Defined.

Lemma enqueue_burst_schedules_one_cycle_witness :
  timers (run same_number (Enqueue <$> seven_tasks) fresh) = 1%nat.
Proof.
  destruct (enqueue_burst_schedules_one_cycle same_number seven_tasks fresh)
    as (Hone & _); [reflexivity | discriminate | exact Hone].
Defined.

Lemma completeTask_removes_first_match_witness :
  activeTasks (completeTask (fun item task : nat => bool_decide (item <= task)%nat) 2%nat
                 (mkState 5 [] [1; 2; 3]%nat true false (mkEmitter 1) 0 [] []))
  = [1; 3]%nat.
Proof.
  destruct (completeTask_removes_first_match
              (fun item task : nat => bool_decide (item <= task)%nat) 2%nat
              (mkState 5 [] [1; 2; 3]%nat true false (mkEmitter 1) 0 [] [])
              [1%nat] [3%nat] 2%nat) as (Hrest & _);
    [reflexivity | by repeat constructor | reflexivity | exact Hrest].
Defined.

Section EventQueueEvents.

Context {T P : Type}.
Variable filter : P -> T -> bool.

#[local] Abbreviation State := (State T P).
#[local] Abbreviation Call := (Call T P).

Lemma run_events_in_order (cs : list Call) (s : State) (known : list T) :
  Forall (fun tasks => tasks `sublist_of` known) (delivered s) ->
  activeTasks s ++ eventQueue s `sublist_of` known ->
  Forall (fun tasks => tasks `sublist_of` known ++ enqueued cs)
         (delivered (run filter cs s)).
Proof.
  revert s known. induction cs as [|c cs IH]; intros s known Hdel Hlists; simpl.
  - by rewrite app_nil_r.
  - rewrite app_assoc. apply IH.
    + assert (Hold : Forall (fun tasks => tasks `sublist_of` known ++ enqueued_by c)
                            (delivered s)).
      { eapply Forall_impl; [exact Hdel|]. intros tasks Htasks.
        by apply sublist_inserts_r. }
      destruct (step_delivered filter c s) as [-> | ->]; [done|].
      apply Forall_app. split; [done|]. apply Forall_singleton.
      etrans; [apply (sublist_inserts_r (eventQueue (step filter c s))); reflexivity|].
      etrans; [apply step_order|]. by apply sublist_app.
    + etrans; [apply step_order|]. by apply sublist_app.
Qed.

(** X18.  Whatever calls a queue receives, every activation event
    carries tasks that were enqueued, each at most as often as it was
    enqueued, in the order in which they were enqueued. *)
Theorem events_carry_enqueued_tasks_in_order (max : Z) (cs : list Call) :
  Forall (fun tasks => tasks `sublist_of` enqueued cs)
         (delivered (run filter cs (construct max))).
Proof. apply (run_events_in_order cs (construct max) []); [constructor | done]. Qed.

End EventQueueEvents.

(** * Further properties of the schema columns *)

Section VerifyFacts.

Variable StringToNumber : string -> Schema.JsNumber.
Variable NumberToString : Z -> string.

#[local] Abbreviation verify := (Schema.verify StringToNumber NumberToString).
#[local] Abbreviation ColumnText_verify :=
  (Schema.ColumnText_verify StringToNumber NumberToString).
#[local] Abbreviation ColumnInteger_verify :=
  (Schema.ColumnInteger_verify StringToNumber NumberToString).

Lemma push_if {A} (b : bool) (l : list A) (x : A) :
  (if b then Schema.push l x else l) = l ++ (if b then [x] else []).
Proof. destruct b; [done | by rewrite app_nil_r]. Qed.

(** The comparisons and [includes] on an integer. *)
Lemma number_gt_integer (n m : Z) :
  Schema.number_gt (Schema.Finite (inject_Z n)) m = bool_decide (n > m).
Proof.
  unfold Schema.number_gt. case_bool_decide as H.
  - apply negb_true_iff, not_true_iff_false. rewrite Qle_bool_iff, <- Zle_Qle. lia.
  - apply negb_false_iff. rewrite Qle_bool_iff, <- Zle_Qle. lia.
Qed.

Lemma number_lt_integer (n m : Z) :
  Schema.number_lt (Schema.Finite (inject_Z n)) m = bool_decide (n < m).
Proof.
  unfold Schema.number_lt. case_bool_decide as H.
  - apply negb_true_iff, not_true_iff_false. rewrite Qle_bool_iff, <- Zle_Qle. lia.
  - apply negb_false_iff. rewrite Qle_bool_iff, <- Zle_Qle. lia.
Qed.

Lemma includes_number_integer (enums : list Z) (n : Z) :
  Schema.includes_number enums (Schema.VNumber (Schema.Finite (inject_Z n)))
  = bool_decide (n ∈ enums).
Proof.
  simpl. induction enums as [|k enums IH]; [done|].
  cbn [existsb]. rewrite IH.
  destruct (Qeq_bool (inject_Z n) (inject_Z k)) eqn:Hk.
  - apply Qeq_bool_iff in Hk. apply (proj1 (inject_Z_injective n k)) in Hk. subst k.
    symmetry. apply bool_decide_eq_true. left.
  - simpl. apply bool_decide_ext. rewrite elem_of_cons.
    split; [auto|]. intros [->|?]; [|done].
    rewrite (proj2 (Qeq_bool_iff _ _)) in Hk by reflexivity. discriminate.
Qed.

(** A comparison of a number returns. *)
Lemma greater_number (x : Schema.JsNumber) (m : Z) :
  Schema.greater StringToNumber (Schema.VNumber x) m = Schema.Normal (Schema.number_gt x m).
Proof. reflexivity. Qed.

Lemma less_number (x : Schema.JsNumber) (m : Z) :
  Schema.less StringToNumber (Schema.VNumber x) m = Schema.Normal (Schema.number_lt x m).
Proof. reflexivity. Qed.

(** The messages of a text column for a string, check by check. *)
Lemma ColumnText_verify_string this mx mn e (s : string) :
  ColumnText_verify this mx mn e (Schema.VString s)
  = Schema.Normal
      (match Schema.truthy mx with
       | Some m =>
           if bool_decide (Z.of_nat (String.length s) > m)
           then ["value length must less than " +:+ NumberToString m] else []
       | None => []
       end
       ++ match Schema.truthy mn with
          | Some m =>
              if bool_decide (Z.of_nat (String.length s) < m)
              then ["value length must greater than " +:+ NumberToString m] else []
          | None => []
          end
       ++ match e with
          | Some enums =>
              if bool_decide (s ∈ enums) then []
              else ["value must be one of " +:+ Schema.join ", " enums]
          | None => []
          end).
Proof.
  unfold Schema.ColumnText_verify, Schema.ColumnType_verify, Schema.push.
  cbn [Schema.get_length Schema.typeof].
  destruct (Schema._required this), (Schema.truthy mx), (Schema.truthy mn), e;
    cbn -[Schema.number_gt Schema.number_lt];
    rewrite ?number_gt_integer, ?number_lt_integer;
    repeat case_bool_decide; simpl; done.
Qed.

(** A value that is not a string has another [typeof]. *)
Lemma typeof_not_string (v : Schema.Value) :
  (forall s, v <> Schema.VString s) -> Schema.typeof v ≠ "string".
Proof. intros Hv. destruct v as [| |b|x|s|n| |[] len prim]; try done. by destruct (Hv s). Qed.

Lemma typeof_not_number (v : Schema.Value) :
  (forall x, v <> Schema.VNumber x) -> Schema.typeof v ≠ "number".
Proof. intros Hv. destruct v as [| |b|x|s|n| |[] len prim]; try done. by destruct (Hv x). Qed.

(** Whatever [verify] returns starts with the messages of [super.verify]
    and of the type check: the later checks only push. *)
Lemma ColumnText_verify_prefix this mx mn e (v : Schema.Value) msgs :
  ColumnText_verify this mx mn e v = Schema.Normal msgs ->
  exists rest,
    msgs = (if bool_decide (Schema.typeof v ≠ "string")
            then Schema.push (Schema.ColumnType_verify this v) "value must be string"
            else Schema.ColumnType_verify this v) ++ rest.
Proof.
  unfold Schema.ColumnText_verify.
  generalize (if bool_decide (Schema.typeof v ≠ "string")
              then Schema.push (Schema.ColumnType_verify this v) "value must be string"
              else Schema.ColumnType_verify this v).
  intros start. unfold Schema.push.
  destruct (Schema.truthy mx) as [m|], (Schema.truthy mn) as [m'|];
    destruct (Schema.get_length v) as [len|]; simpl; try discriminate;
    try destruct (Schema.greater StringToNumber len m) as [[]|]; simpl; try discriminate;
    try destruct (Schema.less StringToNumber len m') as [[]|]; simpl; try discriminate;
    destruct e as [enums|]; simpl; try destruct (Schema.includes_string enums v); simpl;
    intros [= <-]; rewrite <- ?(assoc_L (++)); eauto using app_nil_r.
Qed.

Lemma ColumnInteger_verify_prefix this mx mn e (v : Schema.Value) msgs :
  ColumnInteger_verify this mx mn e v = Schema.Normal msgs ->
  exists rest,
    msgs = (if bool_decide (Schema.typeof v ≠ "number")
            then Schema.push (Schema.ColumnType_verify this v) "value must be number"
            else Schema.ColumnType_verify this v) ++ rest.
Proof.
  unfold Schema.ColumnInteger_verify.
  generalize (if bool_decide (Schema.typeof v ≠ "number")
              then Schema.push (Schema.ColumnType_verify this v) "value must be number"
              else Schema.ColumnType_verify this v).
  intros start. unfold Schema.push.
  destruct (Schema.truthy mx) as [m|], (Schema.truthy mn) as [m'|]; simpl;
    try destruct (Schema.greater StringToNumber v m) as [[]|]; simpl; try discriminate;
    try destruct (Schema.less StringToNumber v m') as [[]|]; simpl; try discriminate;
    destruct e as [enums|]; simpl; try destruct (Schema.includes_number enums v); simpl;
    intros [= <-]; rewrite <- ?(assoc_L (++)); eauto using app_nil_r.
Qed.

(** A text column reports every value that is not a string, when it
    returns. *)
Lemma ColumnText_verify_not_string this mx mn e (v : Schema.Value) msgs :
  (forall s, v <> Schema.VString s) ->
  ColumnText_verify this mx mn e v = Schema.Normal msgs ->
  "value must be string" ∈ msgs.
Proof.
  intros Hv Hmsgs. apply ColumnText_verify_prefix in Hmsgs as [rest ->].
  rewrite bool_decide_true by by apply typeof_not_string.
  unfold Schema.push. rewrite !elem_of_app, list_elem_of_singleton. auto.
Qed.

(** X8.  A text column accepts exactly the strings within its bounds
    and among its enumerated values: [verify] returns no message for
    these and for no other value.  A bound of [0] counts as no bound, and
    whether the column is required plays no part. *)
Theorem verify_text_accepts this d mx mn e (v : Schema.Value) :
  verify (Schema.ColumnText this d mx mn e) v = Schema.Normal []
  <-> exists s, v = Schema.VString s
      /\ (forall m, Schema.truthy mx = Some m -> Z.of_nat (String.length s) <= m)
      /\ (forall m, Schema.truthy mn = Some m -> m <= Z.of_nat (String.length s))
      /\ (forall enums, e = Some enums -> s ∈ enums).
Proof.
  simpl. split.
  - intros Hok.
    assert (exists s, v = Schema.VString s) as [s ->].
    { destruct v as [| |b|x|s|n| |callable len prim]; eauto;
        (apply ColumnText_verify_not_string in Hok; [|done]);
        by apply elem_of_nil in Hok. }
    exists s. split; [done|].
    rewrite ColumnText_verify_string in Hok.
    injection Hok as Hok.
    apply app_eq_nil in Hok as [Hmax Hrest]. apply app_eq_nil in Hrest as [Hmin Henum].
    split_and!.
    + intros m Hm. rewrite Hm in Hmax. by case_bool_decide; [|lia].
    + intros m Hm. rewrite Hm in Hmin. by case_bool_decide; [|lia].
    + intros enums ->. by case_bool_decide.
  - intros (s & -> & Hmax & Hmin & Henum).
    rewrite ColumnText_verify_string. f_equal.
    destruct (Schema.truthy mx) as [m|].
    { specialize (Hmax m eq_refl). rewrite bool_decide_false by lia.
      destruct (Schema.truthy mn) as [m'|].
      - specialize (Hmin m' eq_refl). rewrite bool_decide_false by lia.
        destruct e as [enums|]; [|done]. by rewrite bool_decide_true by auto.
      - destruct e as [enums|]; [|done]. by rewrite bool_decide_true by auto. }
    destruct (Schema.truthy mn) as [m'|].
    + specialize (Hmin m' eq_refl). rewrite bool_decide_false by lia.
      destruct e as [enums|]; [|done]. by rewrite bool_decide_true by auto.
    + destruct e as [enums|]; [|done]. by rewrite bool_decide_true by auto.
Qed.

(** The messages of an integer column for a number, check by check. *)
Lemma ColumnInteger_verify_number this mx mn e (x : Schema.JsNumber) :
  ColumnInteger_verify this mx mn e (Schema.VNumber x)
  = Schema.Normal
      (match Schema.truthy mx with
       | Some m =>
           if Schema.number_gt x m then ["value must less than " +:+ NumberToString m] else []
       | None => []
       end
       ++ match Schema.truthy mn with
          | Some m =>
              if Schema.number_lt x m
              then ["value must greater than " +:+ NumberToString m] else []
          | None => []
          end
       ++ match e with
          | Some enums =>
              if Schema.includes_number enums (Schema.VNumber x) then []
              else ["value must be one of "
                    +:+ Schema.join ", " (NumberToString <$> enums)]
          | None => []
          end).
Proof.
  unfold Schema.ColumnInteger_verify, Schema.ColumnType_verify, Schema.push.
  destruct (Schema._required this), (Schema.truthy mx), (Schema.truthy mn), e;
    cbn -[Schema.number_gt Schema.number_lt Schema.includes_number];
    repeat case_match; simpl; done.
Qed.

(** An integer column reports every value that is not a number, when it
    returns. *)
Lemma ColumnInteger_verify_not_number this mx mn e (v : Schema.Value) msgs :
  (forall x, v <> Schema.VNumber x) ->
  ColumnInteger_verify this mx mn e v = Schema.Normal msgs ->
  "value must be number" ∈ msgs.
Proof.
  intros Hv Hmsgs. apply ColumnInteger_verify_prefix in Hmsgs as [rest ->].
  rewrite bool_decide_true by by apply typeof_not_number.
  unfold Schema.push. rewrite !elem_of_app, list_elem_of_singleton. auto.
Qed.

(** The numbers that an integer column accepts. *)
Lemma ColumnInteger_verify_accepts this mx mn e (v : Schema.Value) :
  ColumnInteger_verify this mx mn e v = Schema.Normal []
  <-> exists x, v = Schema.VNumber x
      /\ (forall m, Schema.truthy mx = Some m -> Schema.number_gt x m = false)
      /\ (forall m, Schema.truthy mn = Some m -> Schema.number_lt x m = false)
      /\ (forall enums, e = Some enums -> Schema.includes_number enums v = true).
Proof.
  split.
  - intros Hok.
    assert (exists x, v = Schema.VNumber x) as [x ->].
    { destruct v as [| |b|x|s|n| |callable len prim]; eauto;
        (apply ColumnInteger_verify_not_number in Hok; [|done]);
        by apply elem_of_nil in Hok. }
    exists x. split; [done|].
    rewrite ColumnInteger_verify_number in Hok.
    injection Hok as Hok.
    apply app_eq_nil in Hok as [Hmax Hrest]. apply app_eq_nil in Hrest as [Hmin Henum].
    split_and!.
    + intros m Hm. rewrite Hm in Hmax. by destruct (Schema.number_gt x m).
    + intros m Hm. rewrite Hm in Hmin. by destruct (Schema.number_lt x m).
    + intros enums ->. simpl in *. by destruct x as [| |q]; try destruct (existsb _ enums).
  - intros (x & -> & Hmax & Hmin & Henum).
    rewrite ColumnInteger_verify_number. f_equal.
    destruct (Schema.truthy mx) as [m|].
    { rewrite (Hmax m eq_refl).
      destruct (Schema.truthy mn) as [m'|].
      - rewrite (Hmin m' eq_refl).
        destruct e as [enums|]; [|done]. by rewrite (Henum enums eq_refl).
      - destruct e as [enums|]; [|done]. by rewrite (Henum enums eq_refl). }
    destruct (Schema.truthy mn) as [m'|].
    + rewrite (Hmin m' eq_refl).
      destruct e as [enums|]; [|done]. by rewrite (Henum enums eq_refl).
    + destruct e as [enums|]; [|done]. by rewrite (Henum enums eq_refl).
Qed.

(** A comparison of a primitive value throws for a symbol only. *)
Lemma greater_primitive (v : Schema.Value) (m : Z) :
  (forall callable len prim, v <> Schema.VObject callable len prim) ->
  (exists err, Schema.greater StringToNumber v m = Schema.Throw err) <-> v = Schema.VSymbol.
Proof.
  intros Hv. destruct v as [| |b|x|s|n| |callable len prim]; simpl;
    try (split; [by intros [err Herr] | done]).
  - split; [done | eauto].
  - by destruct (Hv callable len prim).
Qed.

Lemma less_primitive (v : Schema.Value) (m : Z) :
  (forall callable len prim, v <> Schema.VObject callable len prim) ->
  (exists err, Schema.less StringToNumber v m = Schema.Throw err) <-> v = Schema.VSymbol.
Proof.
  intros Hv. destruct v as [| |b|x|s|n| |callable len prim]; simpl;
    try (split; [by intros [err Herr] | done]).
  - split; [done | eauto].
  - by destruct (Hv callable len prim).
Qed.

(** An integer column with no bound makes no comparison and returns. *)
Lemma ColumnInteger_verify_unbounded this mx mn e (v : Schema.Value) :
  Schema.truthy mx = None -> Schema.truthy mn = None ->
  exists msgs, ColumnInteger_verify this mx mn e v = Schema.Normal msgs.
Proof.
  intros Hmx Hmn. unfold Schema.ColumnInteger_verify. rewrite Hmx, Hmn. simpl. eauto.
Qed.

(** An integer column throws for a primitive value exactly when the
    value is a symbol and a bound is set. *)
Lemma ColumnInteger_verify_throws this mx mn e (v : Schema.Value) :
  (forall callable len prim, v <> Schema.VObject callable len prim) ->
  (exists err, ColumnInteger_verify this mx mn e v = Schema.Throw err)
  <-> v = Schema.VSymbol /\ (Schema.truthy mx <> None \/ Schema.truthy mn <> None).
Proof.
  intros Hv. unfold Schema.ColumnInteger_verify.
  destruct v as [| |b|x|s|n| |callable len prim];
    try (by destruct (Hv callable len prim));
    destruct (Schema.truthy mx) as [m|], (Schema.truthy mn) as [m'|]; simpl;
    (split; [intros [err Herr]; try discriminate Herr; split; auto
            | intros [Hs [Hb|Hb]]; try discriminate Hs; try done; eauto]).
Qed.

(** X9.  An integer column accepts exactly the numbers that are not
    above its maximum, not below its minimum and among its enumerated
    values: [verify] returns no message for these and for no other
    value.  A bound of [0] counts as no bound.  For an integer this is
    [min <= n <= max] and [n] among the enumerated values.  [NaN] is
    above and below nothing, so that it passes every bound.  [verify]
    returns its messages for every primitive value that is not a
    symbol, and for every value when the column has no bound. *)
Theorem verify_integer_accepts this d mx mn e (v : Schema.Value) :
  (verify (Schema.ColumnInteger this d mx mn e) v = Schema.Normal []
   <-> exists x, v = Schema.VNumber x
       /\ (forall m, Schema.truthy mx = Some m -> Schema.number_gt x m = false)
       /\ (forall m, Schema.truthy mn = Some m -> Schema.number_lt x m = false)
       /\ (forall enums, e = Some enums -> Schema.includes_number enums v = true)) /\
  (forall n : Z,
     verify (Schema.ColumnInteger this d mx mn e) (Schema.VNumber (Schema.Finite (inject_Z n)))
     = Schema.Normal []
     <-> (forall m, Schema.truthy mx = Some m -> n <= m)
         /\ (forall m, Schema.truthy mn = Some m -> m <= n)
         /\ (forall enums, e = Some enums -> n ∈ enums)) /\
  verify (Schema.ColumnInteger this d mx mn None) (Schema.VNumber Schema.NaN)
  = Schema.Normal [] /\
  ((forall callable len prim, v <> Schema.VObject callable len prim) ->
   v <> Schema.VSymbol ->
   exists msgs, verify (Schema.ColumnInteger this d mx mn e) v = Schema.Normal msgs) /\
  (Schema.truthy mx = None -> Schema.truthy mn = None ->
   exists msgs, verify (Schema.ColumnInteger this d mx mn e) v = Schema.Normal msgs).
Proof.
  simpl. split_and!.
  - apply ColumnInteger_verify_accepts.
  - intros n. rewrite ColumnInteger_verify_accepts. split.
    + intros (x & [= <-] & Hmax & Hmin & Henum). split_and!.
      * intros m Hm. apply Hmax in Hm. rewrite number_gt_integer in Hm.
        apply bool_decide_eq_false in Hm. lia.
      * intros m Hm. apply Hmin in Hm. rewrite number_lt_integer in Hm.
        apply bool_decide_eq_false in Hm. lia.
      * intros enums He. apply Henum in He. rewrite includes_number_integer in He.
        by apply bool_decide_eq_true in He.
    + intros (Hmax & Hmin & Henum). eexists. split; [done|]. split_and!.
      * intros m Hm. rewrite number_gt_integer. apply bool_decide_eq_false.
        apply Hmax in Hm. lia.
      * intros m Hm. rewrite number_lt_integer. apply bool_decide_eq_false.
        apply Hmin in Hm. lia.
      * intros enums He. rewrite includes_number_integer. apply bool_decide_eq_true. auto.
  - apply ColumnInteger_verify_accepts. eexists. split; [done|]. by split_and!.
  - intros Hprim Hsym.
    destruct (ColumnInteger_verify this mx mn e v) as [msgs|err] eqn:Hv; [eauto|].
    assert (exists err, ColumnInteger_verify this mx mn e v = Schema.Throw err) as Hthrow
      by eauto.
    apply ColumnInteger_verify_throws in Hthrow as [? _]; done.
  - apply ColumnInteger_verify_unbounded.
Qed.

End VerifyFacts.

Section OptionalFacts.

Variable StringToNumber : string -> Schema.JsNumber.
Variable NumberToString : Z -> string.

#[local] Abbreviation verify := (Schema.verify StringToNumber NumberToString).
#[local] Abbreviation ColumnText_verify :=
  (Schema.ColumnText_verify StringToNumber NumberToString).
#[local] Abbreviation ColumnInteger_verify :=
  (Schema.ColumnInteger_verify StringToNumber NumberToString).




(** A column that is not required and wraps no required column never
    reports a missing value. *)
Lemma verify_not_required (c : Schema.Column) (v : Schema.Value) msgs :
  Schema._required (Schema.base_of c) = false ->
  Schema.wrapped_not_required c ->
  verify c v = Schema.Normal msgs ->
  "value is required" ∉ msgs.
Proof.
  assert (Hnone : forall this, Schema._required this = false ->
                    Schema.ColumnType_verify this v = []).
  { intros this Hreq. unfold Schema.ColumnType_verify. by rewrite Hreq. }
  induction c as [this|this d mx mn e|this d mx mn e|this d|this col IH]; simpl;
    intros Hreq Hwrapped.
  - rewrite Hnone by done. intros [= <-]. apply not_elem_of_nil.
  - unfold Schema.ColumnText_verify, Schema.push. rewrite Hnone by done.
    destruct (Schema.truthy mx) as [m|], (Schema.truthy mn) as [m'|];
      destruct (Schema.get_length v) as [len|]; simpl; try discriminate;
      try destruct (Schema.greater StringToNumber len m) as [[]|]; simpl; try discriminate;
      try destruct (Schema.less StringToNumber len m') as [[]|]; simpl; try discriminate;
      destruct e as [enums|]; simpl; try destruct (Schema.includes_string enums v); simpl;
      case_bool_decide; intros [= <-];
      rewrite ?elem_of_app, ?elem_of_cons, ?elem_of_nil; intuition discriminate.
  - unfold Schema.ColumnInteger_verify, Schema.push. rewrite Hnone by done.
    destruct (Schema.truthy mx) as [m|], (Schema.truthy mn) as [m'|]; simpl;
      try destruct (Schema.greater StringToNumber v m) as [[]|]; simpl; try discriminate;
      try destruct (Schema.less StringToNumber v m') as [[]|]; simpl; try discriminate;
      destruct e as [enums|]; simpl; try destruct (Schema.includes_number enums v); simpl;
      case_bool_decide; intros [= <-];
      rewrite ?elem_of_app, ?elem_of_cons, ?elem_of_nil; intuition discriminate.
  - unfold Schema.ColumnBoolean_verify, Schema.push. rewrite Hnone by done.
    case_bool_decide; intros [= <-];
      rewrite ?elem_of_app, ?elem_of_cons, ?elem_of_nil; intuition discriminate.
  - destruct Hwrapped as [Hreq' Hwrapped]. by apply IH.
Qed.

Lemma with_base_wrapped f (c : Schema.Column) :
  Schema.wrapped_not_required (Schema.with_base f c) <-> Schema.wrapped_not_required c.
Proof. by destruct c. Qed.

(** X11.  The builder methods keep what the constructor of
    [ColumnOptional] sets up: in a column made by [text], [integer],
    [boolean] and [date] and the builder methods, every wrapped column
    is not required.  For such a column [c], the messages of
    [c.optional().verify(value)] never include 'value is required'. *)
Theorem optional_never_reports_required (c : Schema.Column) (v : Schema.Value) msgs :
  Schema.wrapped_not_required c ->
  (Schema.wrapped_not_required (Schema.optional c)
   /\ Schema.wrapped_not_required (Schema.primary c)
   /\ Schema.wrapped_not_required (Schema.unique c)
   /\ Schema.wrapped_not_required (Schema.autoIncrement c)
   /\ (forall m, Schema.wrapped_not_required (Schema.max m c))
   /\ (forall m, Schema.wrapped_not_required (Schema.min m c))
   /\ (forall enums, Schema.wrapped_not_required (Schema.ColumnText_enum enums c))
   /\ (forall enums, Schema.wrapped_not_required (Schema.ColumnInteger_enum enums c))) /\
  (verify (Schema.optional c) v = Schema.Normal msgs -> "value is required" ∉ msgs).
Proof.
  intros Hwrapped. split.
  - unfold Schema.primary, Schema.unique, Schema.autoIncrement.
    rewrite !with_base_wrapped. split_and!; try done.
    + simpl. rewrite with_base_wrapped. split; [by destruct c | done].
    + intros m. by destruct c.
    + intros m. by destruct c.
    + intros enums. by destruct c.
    + intros enums. by destruct c.
  - simpl. apply verify_not_required.
    + by destruct c.
    + by rewrite with_base_wrapped.
Qed.

(** A column that is not required and wraps no required column accepts
    a missing value only if a date column checks it. *)
Lemma verify_missing_value (c : Schema.Column) (v : Schema.Value) :
  v = Schema.VUndefined \/ v = Schema.VNull ->
  Schema._required (Schema.base_of c) = false ->
  Schema.wrapped_not_required c ->
  (verify c v = Schema.Normal []
   <-> exists this, Schema.innermost c = Schema.ColumnDate this).
Proof.
  intros Hv.
  induction c as [this|this d mx mn e|this d mx mn e|this d|this col IH];
    intros Hreq Hwrapped.
  - simpl in *. unfold Schema.ColumnType_verify. rewrite Hreq. split; eauto.
  - simpl. split; [|by intros [? ?]]. intros Hok.
    apply (ColumnText_verify_not_string StringToNumber NumberToString) in Hok.
    + by apply elem_of_nil in Hok.
    + by destruct Hv as [-> | ->].
  - simpl. split; [|by intros [? ?]]. intros Hok.
    apply (ColumnInteger_verify_not_number StringToNumber NumberToString) in Hok.
    + by apply elem_of_nil in Hok.
    + by destruct Hv as [-> | ->].
  - simpl. unfold Schema.ColumnBoolean_verify, Schema.ColumnType_verify, Schema.push.
    split; [|by intros [? ?]].
    destruct Hv as [-> | ->]; simpl; by destruct (Schema._required this).
  - destruct Hwrapped as [Hreq' Hwrapped]. simpl. by apply IH.
Qed.

(** X12.  Wrapping a typed column in [optional()] does not make a
    missing value pass: for a text, integer or boolean column, [verify]
    of the wrapper on [null] or [undefined] either throws or returns
    messages.  Only when a date column checks the value does it return
    no message. *)
Theorem optional_still_rejects_missing_value (c : Schema.Column) (v : Schema.Value) :
  Schema.wrapped_not_required c ->
  v = Schema.VUndefined \/ v = Schema.VNull ->
  (verify (Schema.optional c) v = Schema.Normal []
   <-> exists this, Schema.innermost c = Schema.ColumnDate this).
Proof.
  intros Hwrapped Hv. simpl.
  rewrite (verify_missing_value _ v Hv).
  - destruct c; simpl; split; intros [this' Hdate]; try discriminate Hdate; eauto.
  - by destruct c.
  - by rewrite with_base_wrapped.
Qed.

End OptionalFacts.

(** * Properties of objects and tables *)

Section ObjectFacts.

Context {V : Type}.
Implicit Types (o target source : list (string * V)) (k : string) (v : V).

Lemma obj_get_set k k' v o :
  Schema.obj_get k (Schema.obj_set k' v o)
  = if decide (k' = k) then Some v else Schema.obj_get k o.
Proof.
  induction o as [|[k0 v0] o IH]; simpl.
  - by destruct (decide (k' = k)).
  - destruct (decide (k0 = k')) as [->|Hne]; simpl.
    + by destruct (decide (k' = k)).
    + rewrite IH. destruct (decide (k0 = k)) as [->|]; [|done].
      destruct (decide (k' = k)); congruence.
Qed.

Lemma obj_get_None k o : Schema.obj_get k o = None <-> k ∉ o.*1.
Proof.
  induction o as [|[k0 v0] o IH]; simpl.
  - split; [intros _; apply not_elem_of_nil | done].
  - rewrite not_elem_of_cons. destruct (decide (k0 = k)) as [->|Hne].
    + split; [done | by intros [? _]].
    + rewrite IH. split; [by intros ?; split | by intros [_ ?]].
Qed.

Lemma obj_get_Some k v o :
  NoDup o.*1 -> Schema.obj_get k o = Some v <-> (k, v) ∈ o.
Proof.
  induction o as [|[k0 v0] o IH]; simpl; intros Hnodup.
  - split; [done | by intros ?%elem_of_nil].
  - apply NoDup_cons in Hnodup as [Hfresh Hnodup]. rewrite elem_of_cons.
    destruct (decide (k0 = k)) as [->|Hne].
    + split; [intros [= ->]; by left|].
      intros [[= ->]|Hin]; [done|].
      destruct Hfresh. apply list_elem_of_fmap. by exists (k, v).
    + rewrite (IH Hnodup). split; [by right | by intros [[= ? ?]|?]].
Qed.

Lemma obj_set_keys k v o :
  (Schema.obj_set k v o).*1 = if decide (k ∈ o.*1) then o.*1 else o.*1 ++ [k].
Proof.
  induction o as [|[k0 v0] o IH]; cbn [Schema.obj_set].
  - rewrite fmap_nil. case_decide as Hin; [by apply elem_of_nil in Hin | done].
  - rewrite (fmap_cons fst (k0, v0) o). cbn [fst].
    destruct (decide (k0 = k)) as [->|Hne].
    + rewrite fmap_cons. cbn [fst]. rewrite decide_True; [done | by left].
    + rewrite fmap_cons, IH. cbn [fst]. destruct (decide (k ∈ o.*1)) as [Hin|Hout].
      * rewrite decide_True; [done | by right].
      * rewrite decide_False; [done|]. rewrite not_elem_of_cons. by split.
Qed.

Lemma obj_set_NoDup k v o : NoDup o.*1 -> NoDup (Schema.obj_set k v o).*1.
Proof.
  intros Hnodup. rewrite obj_set_keys. destruct (decide _) as [|Hout]; [done|].
  apply NoDup_app. split_and!; [done | | apply NoDup_singleton].
  intros x Hx ->%list_elem_of_singleton. done.
Qed.

Lemma insert_by_index_Permutation (x : string * V) o :
  Schema.insert_by_index x o ≡ₚ x :: o.
Proof.
  induction o as [|y o IH]; simpl; [done|].
  case_decide; [done|]. by rewrite IH, Permutation_swap.
Qed.

Lemma sort_by_index_Permutation o : Schema.sort_by_index o ≡ₚ o.
Proof.
  induction o as [|x o IH]; simpl; [done|].
  by rewrite insert_by_index_Permutation, IH.
Qed.

Lemma obj_entries_Permutation o : Schema.obj_entries o ≡ₚ o.
Proof.
  unfold Schema.obj_entries.
  rewrite sort_by_index_Permutation. apply filter_app_complement.
Qed.

Lemma obj_get_Permutation k o1 o2 :
  NoDup o1.*1 -> o1 ≡ₚ o2 -> Schema.obj_get k o1 = Schema.obj_get k o2.
Proof.
  intros Hnodup Hperm.
  assert (Hnodup2 : NoDup o2.*1) by by rewrite <- Hperm.
  apply option_eq. intros v.
  rewrite !obj_get_Some by done. by rewrite Hperm.
Qed.

Lemma foldl_set_get k (l : list (string * V)) target :
  NoDup l.*1 ->
  Schema.obj_get k (foldl (fun o kv => Schema.obj_set kv.1 kv.2 o) target l)
  = match Schema.obj_get k l with
    | Some v => Some v
    | None => Schema.obj_get k target
    end.
Proof.
  revert target. induction l as [|[k0 v0] l IH]; intros target Hnodup; simpl; [done|].
  apply NoDup_cons in Hnodup as [Hfresh Hnodup].
  rewrite (IH _ Hnodup), obj_get_set. simpl.
  destruct (decide (k0 = k)) as [->|Hne]; [|done].
  by rewrite (proj2 (obj_get_None k l) Hfresh).
Qed.

Lemma foldl_set_NoDup (l : list (string * V)) target :
  NoDup target.*1 ->
  NoDup (foldl (fun o kv => Schema.obj_set kv.1 kv.2 o) target l).*1.
Proof.
  revert target. induction l as [|[k0 v0] l IH]; intros target Hnodup; simpl; [done|].
  by apply IH, obj_set_NoDup.
Qed.

(** Spreading [source] into [target]: a key of [source] gets the value
    it has there; any other key keeps the value it has in [target]. *)
Lemma obj_spread_get k target source :
  NoDup source.*1 ->
  Schema.obj_get k (Schema.obj_spread target source)
  = match Schema.obj_get k source with
    | Some v => Some v
    | None => Schema.obj_get k target
    end.
Proof.
  intros Hnodup. unfold Schema.obj_spread.
  assert (Hentries : NoDup (Schema.obj_entries source).*1)
    by by rewrite obj_entries_Permutation.
  rewrite (foldl_set_get k _ _ Hentries).
  by rewrite (obj_get_Permutation k _ source Hentries (obj_entries_Permutation source)).
Qed.

Lemma obj_spread_NoDup target source :
  NoDup target.*1 -> NoDup (Schema.obj_spread target source).*1.
Proof. apply foldl_set_NoDup. Qed.

End ObjectFacts.

Section SpreadAgain.

Context {V : Type}.
Implicit Types (o kernel source : list (string * V)) (k : string) (v : V).

#[local] Abbreviation is_index := (fun kv : string * V => is_Some (Schema.array_index kv.1)).
#[local] Abbreviation spread_into :=
  (foldl (fun o (kv : string * V) => Schema.obj_set kv.1 kv.2 o)).

Lemma insert_by_index_head (x : string * V) o :
  HdRel (fun x y => (Schema.index_of x <= Schema.index_of y)%N) x o ->
  Schema.insert_by_index x o = x :: o.
Proof. intros [|y o' Hle]; simpl; [done|]. by rewrite decide_True. Qed.

Lemma insert_by_index_Sorted (x : string * V) o :
  Sorted (fun x y => (Schema.index_of x <= Schema.index_of y)%N) o ->
  Sorted (fun x y => (Schema.index_of x <= Schema.index_of y)%N)
         (Schema.insert_by_index x o).
Proof.
  induction 1 as [|y o Hsorted IH Hhd]; simpl; [by repeat constructor|].
  case_decide as Hle.
  - by repeat constructor.
  - constructor; [done|].
    destruct Hhd as [|z o' Hyz]; simpl in *; [constructor; lia|].
    case_decide; constructor; lia.
Qed.

Lemma sort_by_index_Sorted o :
  Sorted (fun x y => (Schema.index_of x <= Schema.index_of y)%N) (Schema.sort_by_index o).
Proof.
  induction o as [|x o IH]; simpl; [constructor | by apply insert_by_index_Sorted].
Qed.

Lemma sort_by_index_sorted o :
  Sorted (fun x y => (Schema.index_of x <= Schema.index_of y)%N) o ->
  Schema.sort_by_index o = o.
Proof.
  induction 1 as [|x o Hsorted IH Hhd]; simpl; [done|].
  by rewrite IH, insert_by_index_head.
Qed.

Lemma filter_all (Q : string * V -> Prop) `{!forall x, Decision (Q x)} o :
  Forall Q o -> base.filter Q o = o.
Proof.
  induction 1 as [|x o Hx _ IH]; [done|].
  by rewrite filter_cons_True, IH.
Qed.

Lemma filter_none (Q : string * V -> Prop) `{!forall x, Decision (Q x)} o :
  Forall (fun x => ~ Q x) o -> base.filter Q o = [].
Proof.
  induction 1 as [|x o Hx _ IH]; [done|].
  by rewrite filter_cons_False, IH.
Qed.

(** The entries of an object whose index keys come first, in order. *)
Lemma obj_entries_indices_first indices others :
  Forall is_index indices ->
  Forall (fun kv => ~ is_index kv) others ->
  Sorted (fun x y => (Schema.index_of x <= Schema.index_of y)%N) indices ->
  forall front,
    Forall (fun kv => ~ is_index kv) front ->
    Schema.obj_entries (front ++ indices ++ others) = indices ++ front ++ others.
Proof.
  intros Hidx Hothers Hsorted front Hfront. unfold Schema.obj_entries.
  rewrite !filter_app.
  rewrite (filter_none is_index front), (filter_all is_index indices),
    (filter_none is_index others) by done.
  rewrite (filter_all _ front), (filter_all _ others) by done.
  rewrite (filter_none (fun kv => ~ is_index kv) indices).
  - simpl. by rewrite app_nil_r, sort_by_index_sorted.
  - eapply Forall_impl; [exact Hidx|]. by intros kv Hkv Hnot.
Qed.

Lemma obj_set_fresh k v o :
  k ∉ o.*1 -> Schema.obj_set k v o = o ++ [(k, v)].
Proof.
  induction o as [|[k0 v0] o IH]; simpl; [done|].
  rewrite not_elem_of_cons. intros [Hne Hout].
  rewrite decide_False by done. by rewrite IH.
Qed.

Lemma obj_set_app_l k v o1 o2 :
  k ∈ o1.*1 -> Schema.obj_set k v (o1 ++ o2) = Schema.obj_set k v o1 ++ o2.
Proof.
  induction o1 as [|[k0 v0] o1 IH]; simpl; [by intros ?%elem_of_nil|].
  rewrite elem_of_cons. intros Hin.
  destruct (decide (k0 = k)) as [->|Hne]; [done|].
  rewrite IH; [done|]. by destruct Hin.
Qed.

Lemma obj_set_same_keys k v o :
  k ∈ o.*1 -> (Schema.obj_set k v o).*1 = o.*1.
Proof. intros Hin. by rewrite obj_set_keys, decide_True. Qed.

(** Spreading new keys appends them. *)
Lemma spread_into_fresh (l : list (string * V)) o :
  NoDup (o.*1 ++ l.*1) -> spread_into o l = o ++ l.
Proof.
  revert o. induction l as [|[k v] l IH]; intros o Hnodup; simpl.
  - by rewrite app_nil_r.
  - rewrite fmap_cons in Hnodup. simpl in Hnodup.
    apply NoDup_app in Hnodup as (Ho & Hdisj & Hl).
    rewrite obj_set_fresh by (intros Hin; apply (Hdisj k Hin); by left).
    rewrite IH, <- app_assoc; [done|].
    rewrite fmap_app. simpl. rewrite <- app_assoc. simpl.
    apply NoDup_app. split_and!; [done | | done].
    intros x Hx. by apply Hdisj.
Qed.

(** Spreading the keys an object starts with, in the order it has them,
    replaces their values in place. *)
Lemma spread_into_in_place (l o : list (string * V)) :
  forall done_ rest,
    l.*1 = o.*1 -> NoDup (done_.*1 ++ o.*1) ->
    spread_into (done_ ++ o ++ rest) l = done_ ++ l ++ rest.
Proof.
  revert o. induction l as [|[k v] l IH]; intros [|[k0 v0] o] done_ rest Hkeys Hnodup;
    try discriminate Hkeys; [done|].
  rewrite !fmap_cons in Hkeys. simpl in Hkeys. injection Hkeys as <- Hkeys.
  simpl.
  assert (Hk : k ∉ done_.*1).
  { rewrite fmap_cons in Hnodup. simpl in Hnodup.
    apply NoDup_app in Hnodup as (_ & Hdisj & _).
    intros Hin. apply (Hdisj k Hin). by left. }
  assert (Hset : Schema.obj_set k v (done_ ++ (k, v0) :: o ++ rest)
                 = (done_ ++ [(k, v)]) ++ o ++ rest).
  { clear -Hk. induction done_ as [|[k1 v1] done_ IHd]; simpl.
    - by rewrite decide_True.
    - rewrite fmap_cons, not_elem_of_cons in Hk. destruct Hk as [Hne Hk].
      rewrite decide_False by done. by rewrite IHd. }
  rewrite Hset, (IH o (done_ ++ [(k, v)]) rest Hkeys).
  - by rewrite <- app_assoc.
  - rewrite fmap_app, <- app_assoc. simpl.
    rewrite fmap_cons in Hnodup. exact Hnodup.
Qed.

End SpreadAgain.

Section SpreadTwice.

Context {V : Type}.
Implicit Types (o kernel source : list (string * V)) (k : string) (v : V).

#[local] Abbreviation is_index := (fun kv : string * V => is_Some (Schema.array_index kv.1)).
#[local] Abbreviation spread_into :=
  (foldl (fun o (kv : string * V) => Schema.obj_set kv.1 kv.2 o)).

(** Spreading into an object that starts with the keys [front]: the
    values of these keys change in place, and the other keys are
    appended in the order they come. *)
Lemma spread_into_split (l : list (string * V)) :
  forall front others,
    NoDup (others.*1 ++ l.*1) ->
    (forall k, k ∈ others.*1 -> k ∉ front.*1) ->
    exists front',
      front'.*1 = front.*1 /\
      spread_into (front ++ others) l
      = front' ++ others ++ base.filter (fun kv => kv.1 ∉ front.*1) l.
Proof.
  induction l as [|[k v] l IH]; intros front others Hnodup Hdisj.
  - exists front. by rewrite filter_nil, !app_nil_r.
  - rewrite fmap_cons in Hnodup. simpl in Hnodup. simpl.
    destruct (decide (k ∈ front.*1)) as [Hin|Hout].
    + rewrite obj_set_app_l by done.
      destruct (IH (Schema.obj_set k v front) others) as (front' & Hkeys & ->).
      * apply NoDup_app in Hnodup as (? & Hd & Hl%NoDup_cons).
        apply NoDup_app. split_and!; [done | | by destruct Hl].
        intros x Hx Hx'. apply (Hd x Hx). by right.
      * intros x Hx. rewrite obj_set_same_keys by done. by apply Hdisj.
      * exists front'. rewrite obj_set_same_keys in Hkeys |- * by done.
        split; [done|]. by rewrite filter_cons_False by (simpl; auto).
    + assert (Hfresh : k ∉ (front ++ others).*1).
      { rewrite fmap_app, elem_of_app. intros [?|Hin]; [done|].
        apply NoDup_app in Hnodup as (_ & Hd & _). apply (Hd k Hin). by left. }
      rewrite obj_set_fresh, <- app_assoc by done.
      destruct (IH front (others ++ [(k, v)])) as (front' & Hkeys & ->).
      * rewrite fmap_app, <- app_assoc. exact Hnodup.
      * intros x. rewrite fmap_app, elem_of_app. simpl.
        rewrite list_elem_of_singleton. intros [Hx| ->]; [by apply Hdisj | done].
      * exists front'. split; [done|].
        by rewrite filter_cons_True, <- app_assoc by done.
Qed.

(** Spreading the same object a second time over the same kernel
    changes nothing, when no key of the kernel is an array index. *)
Lemma obj_spread_twice kernel source :
  NoDup kernel.*1 ->
  Forall (fun kv => ~ is_index kv) kernel ->
  NoDup source.*1 ->
  Schema.obj_spread kernel (Schema.obj_spread kernel source)
  = Schema.obj_spread kernel source.
Proof.
  intros Hkernel Hplain Hsource.
  set (indices := Schema.sort_by_index (base.filter is_index source)).
  set (plain := base.filter (fun kv => ~ is_index kv) source).
  assert (Hindices : Forall is_index indices).
  { unfold indices. rewrite sort_by_index_Permutation. apply Forall_forall.
    by intros kv [? _]%list_elem_of_filter. }
  assert (Hplain' : Forall (fun kv => ~ is_index kv) plain).
  { apply Forall_forall. by intros kv [? _]%list_elem_of_filter. }
  assert (Hentries : NoDup (indices.*1 ++ plain.*1)).
  { rewrite <- fmap_app.
    change (indices ++ plain) with (Schema.obj_entries source).
    by rewrite obj_entries_Permutation. }
  assert (Hapart : forall k, k ∈ indices.*1 -> k ∉ kernel.*1).
  { intros k [[k1 v1] [-> Hin1]]%list_elem_of_fmap [[k2 v2] [Heq Hin2]]%list_elem_of_fmap.
    simpl in Heq. subst k2.
    rewrite Forall_forall in Hindices, Hplain.
    by apply (Hplain _ Hin2), (Hindices _ Hin1). }
  assert (Hfirst : Schema.obj_spread kernel source
                   = spread_into (kernel ++ indices) plain).
  { unfold Schema.obj_spread, Schema.obj_entries. fold indices plain.
    rewrite foldl_app, (spread_into_fresh indices kernel); [done|].
    apply NoDup_app. split_and!; [done | | by apply NoDup_app in Hentries as (? & _)].
    intros k Hk Hk'. by apply (Hapart k). }
  destruct (spread_into_split plain kernel indices Hentries Hapart)
    as (kernel' & Hkeys & Hsplit).
  set (others := base.filter (fun kv => kv.1 ∉ kernel.*1) plain) in *.
  rewrite Hfirst, Hsplit.
  assert (Hmerged : NoDup (kernel' ++ indices ++ others).*1).
  { rewrite <- Hsplit, <- Hfirst. by apply obj_spread_NoDup. }
  assert (Hkernel' : Forall (fun kv => ~ is_index kv) kernel').
  { apply Forall_forall. intros [k v] Hin Hidx. simpl in Hidx.
    assert (Hk : k ∈ kernel.*1).
    { rewrite <- Hkeys. apply list_elem_of_fmap. by exists (k, v). }
    apply list_elem_of_fmap in Hk as [[k' v'] [Heq Hin']]. simpl in Heq. subst k'.
    rewrite Forall_forall in Hplain. by apply (Hplain _ Hin'). }
  assert (Hothers : Forall (fun kv => ~ is_index kv) others).
  { apply Forall_forall. intros kv [_ Hin]%list_elem_of_filter.
    rewrite Forall_forall in Hplain'. by apply Hplain'. }
  unfold Schema.obj_spread at 1.
  rewrite (obj_entries_indices_first indices others Hindices Hothers
             (sort_by_index_Sorted _) kernel' Hkernel').
  rewrite !foldl_app.
  rewrite (spread_into_fresh indices kernel).
  - pose proof (spread_into_in_place kernel' kernel [] indices Hkeys Hkernel) as Hplace.
    simpl in Hplace. rewrite Hplace.
    rewrite spread_into_fresh; [by rewrite <- app_assoc|].
    rewrite <- fmap_app, <- app_assoc. exact Hmerged.
  - apply NoDup_app. split_and!; [done | | by apply NoDup_app in Hentries as (? & _)].
    intros k Hk Hk'. by apply (Hapart k).
Qed.

End SpreadTwice.

Section TableFacts.

Implicit Types (cols : list (string * Schema.Column)) (k : string).

Lemma genCreateSql_returns (c : Schema.Column) :
  (exists sql, Schema.genCreateSql c = Schema.Normal sql)
  <-> ~ (Schema._autoIncrement (Schema.base_of c) = true
         /\ Schema._primary (Schema.base_of c) = false).
Proof.
  unfold Schema.genCreateSql.
  destruct (Schema.base_of c) as [[] [] [] []]; simpl;
    (split; [intros [sql Hsql]; try discriminate Hsql; by intros [? ?]
            | intros Hok; try (by destruct Hok); eauto]).
Qed.

(** [map] with a callback that can throw returns exactly when the
    callback returns for every element. *)
Lemma mapM_returns {A B} (f : A -> Schema.Completion B) (l : list A) :
  (exists ys, mapM f l = Schema.Normal ys)
  <-> Forall (fun x => exists y, f x = Schema.Normal y) l.
Proof.
  induction l as [|x l IH]; simpl.
  - split; [constructor | by eexists].
  - rewrite Forall_cons, <- IH. unfold mbind, Schema.Completion_bind, mret.
    destruct (f x) as [y|err]; simpl.
    + destruct (mapM f l) as [ys|err]; simpl.
      * split; [by eauto | by eexists].
      * split; [by intros [? ?] | by intros [_ [? ?]]].
    + split; [by intros [? ?] | by intros [[? ?] _]].
Qed.

Lemma obj_get_fmap_Some k cols :
  Schema.obj_get k (prod_map id Some <$> cols) = Some <$> Schema.obj_get k cols.
Proof.
  induction cols as [|[k0 c0] cols IH]; [done|].
  rewrite fmap_cons. cbn [Schema.obj_get prod_map fst snd id].
  by destruct (decide (k0 = k)).
Qed.

Lemma keys_fmap_Some cols : (prod_map id Some <$> cols).*1 = cols.*1.
Proof. rewrite <- list_fmap_compose. by apply list_fmap_ext; intros ? []. Qed.

Lemma kernelColumns_spread : Schema.obj_spread [] Schema.kernelColumns = Schema.kernelColumns.
Proof. reflexivity. Qed.

Lemma kernelColumns_NoDup : NoDup Schema.kernelColumns.*1.
Proof. apply (bool_decide_unpack (NoDup Schema.kernelColumns.*1)). by vm_compute. Qed.

(** X13.  The columns of a table are the kernel columns and the columns
    given to [table], each name once; where a given column has the name
    of a kernel column, the table holds the given one. *)
Theorem table_columns_override_kernel (name : string) cols k :
  NoDup cols.*1 ->
  NoDup (Schema.columns (Schema.table name cols)).*1 /\
  Schema.obj_get k (Schema.columns (Schema.table name cols))
  = match Schema.obj_get k cols with
    | Some c => Some (Some c)
    | None => Schema.obj_get k Schema.kernelColumns
    end.
Proof.
  intros Hnodup. simpl. rewrite kernelColumns_spread. split.
  - apply obj_spread_NoDup, kernelColumns_NoDup.
  - rewrite obj_spread_get by by rewrite keys_fmap_Some.
    rewrite obj_get_fmap_Some. by destruct (Schema.obj_get k cols).
Qed.

(** X14.  [genCreateSql] of a table returns its statement exactly when
    the columns given to [table] include columns named [_createAt],
    [_updateAt] and [_deleteAt], and none of the given columns has
    auto-increment without primary.  Otherwise it throws: the three
    kernel date columns are [undefined], and [genCreateSql] is called on
    each column. *)
Theorem Table_genCreateSql_returns (name : string) cols :
  NoDup cols.*1 ->
  (exists sql, Schema.Table_genCreateSql (Schema.table name cols) = Schema.Normal sql)
  <-> ("_createAt" ∈ cols.*1 /\ "_updateAt" ∈ cols.*1 /\ "_deleteAt" ∈ cols.*1)
      /\ Forall (fun kc => ~ (Schema._autoIncrement (Schema.base_of kc.2) = true
                             /\ Schema._primary (Schema.base_of kc.2) = false)) cols.
Proof.
  intros Hnodup.
  destruct (table_columns_override_kernel name cols "" Hnodup) as [Hkeys _].
  assert (Hget : forall k,
    Schema.obj_get k (Schema.obj_spread (Schema.obj_spread [] Schema.kernelColumns)
                        (Schema.columns (Schema.table name cols)))
    = match Schema.obj_get k cols with
      | Some c => Some (Some c)
      | None => Schema.obj_get k Schema.kernelColumns
      end).
  { intros k. rewrite kernelColumns_spread, obj_spread_get by done.
    rewrite (proj2 (table_columns_override_kernel name cols k Hnodup)).
    by destruct (Schema.obj_get k cols), (Schema.obj_get k Schema.kernelColumns). }
  assert (Hfinal : NoDup (Schema.obj_spread (Schema.obj_spread [] Schema.kernelColumns)
                            (Schema.columns (Schema.table name cols))).*1).
  { rewrite kernelColumns_spread. apply obj_spread_NoDup, kernelColumns_NoDup. }
  unfold Schema.Table_genCreateSql.
  set (final := Schema.obj_spread _ (Schema.columns _)) in *.
  transitivity (exists ys, mapM Schema.column_sql (Schema.obj_entries final) = Schema.Normal ys).
  { unfold mbind, Schema.Completion_bind, mret.
    destruct (mapM _ _); split; intros [? ?]; try done; eauto. }
  rewrite mapM_returns, obj_entries_Permutation, Forall_forall.
  assert (Hentry : forall k v, (k, v) ∈ final <->
    match Schema.obj_get k cols with
    | Some c => v = Some c
    | None => Schema.obj_get k Schema.kernelColumns = Some v
    end).
  { intros k v. rewrite <- obj_get_Some, Hget by done.
    destruct (Schema.obj_get k cols); [|done]. split; congruence. }
  split.
  - intros Hall. split.
    + assert (Hdate : forall k, Schema.obj_get k Schema.kernelColumns = Some None ->
                                k ∈ cols.*1).
      { intros k Hk. destruct (decide (k ∈ cols.*1)) as [|Hout]; [done|].
        apply obj_get_None in Hout.
        destruct (Hall (k, None)) as [y Hy]; [|done].
        apply Hentry. by rewrite Hout. }
      split_and!; by apply Hdate.
    + apply Forall_forall. intros [k c] Hin. simpl.
      apply genCreateSql_returns.
      apply obj_get_Some in Hin; [|done].
      destruct (Hall (k, Some c)) as [y Hy].
      { apply Hentry. by rewrite Hin. }
      unfold Schema.column_sql in Hy. simpl in Hy.
      unfold mbind, Schema.Completion_bind in Hy.
      destruct (Schema.genCreateSql c); [eauto | done].
  - intros [(Hc & Hu & Hd) Hcols] [k v] Hin.
    apply Hentry in Hin.
    assert (Hok : exists c, v = Some c
                  /\ ~ (Schema._autoIncrement (Schema.base_of c) = true
                        /\ Schema._primary (Schema.base_of c) = false)).
    { destruct (Schema.obj_get k cols) as [c|] eqn:Hk.
      - subst v. exists c. split; [done|].
        apply obj_get_Some in Hk; [|done].
        rewrite Forall_forall in Hcols. apply (Hcols (k, c) Hk).
      - apply obj_get_None in Hk.
        unfold Schema.kernelColumns in Hin. simpl in Hin.
        repeat case_decide; simplify_eq; try done.
        eexists. split; [done|]. by intros [_ ?]. }
    destruct Hok as (c & -> & Hc').
    apply genCreateSql_returns in Hc' as [sql Hsql].
    unfold Schema.column_sql. simpl. rewrite Hsql. by eexists.
Qed.

Lemma kernelColumns_plain :
  Forall (fun kv : string * option Schema.Column => ~ is_Some (Schema.array_index kv.1))
         Schema.kernelColumns.
Proof. repeat constructor; by intros [? [=]]. Qed.

(** X19.  [Table.genCreateSql] spreads the kernel columns under the
    columns of the table once more.  That changes nothing, neither a
    value nor the order: the statement is made from the entries of the
    table's columns as the constructor left them. *)
Theorem Table_genCreateSql_uses_table_columns (name : string) cols :
  NoDup cols.*1 ->
  Schema.obj_spread (Schema.obj_spread [] Schema.kernelColumns)
    (Schema.columns (Schema.table name cols))
  = Schema.columns (Schema.table name cols) /\
  Schema.Table_genCreateSql (Schema.table name cols)
  = (fragments ← mapM Schema.column_sql
                   (Schema.obj_entries (Schema.columns (Schema.table name cols)));
     mret ("CREATE TABLE IF NOT EXISTS " +:+ name +:+ " ("
           +:+ Schema.join ", " fragments +:+ ");")).
Proof.
  intros Hnodup.
  assert (Hagain : Schema.obj_spread (Schema.obj_spread [] Schema.kernelColumns)
                     (Schema.columns (Schema.table name cols))
                   = Schema.columns (Schema.table name cols)).
  { simpl. rewrite kernelColumns_spread.
    apply obj_spread_twice;
      [apply kernelColumns_NoDup | apply kernelColumns_plain | by rewrite keys_fmap_Some]. }
  split; [done|]. unfold Schema.Table_genCreateSql. by rewrite Hagain.
Qed.

End TableFacts.

Section BuilderFacts.

Variable StringToNumber : string -> Schema.JsNumber.
Variable NumberToString : Z -> string.

#[local] Abbreviation verify := (Schema.verify StringToNumber NumberToString).

(** X15.  A boolean column accepts exactly the booleans.  A date column
    checks nothing but presence: it accepts every value when it is not
    required, and every value but [null] and [undefined] when it is. *)
Theorem verify_boolean_and_date_accept this d (v : Schema.Value) :
  (verify (Schema.ColumnBoolean this d) v = Schema.Normal []
   <-> exists b, v = Schema.VBoolean b) /\
  (verify (Schema.ColumnDate this) v = Schema.Normal []
   <-> Schema._required this = false
       \/ (v <> Schema.VUndefined /\ v <> Schema.VNull)).
Proof.
  simpl. unfold Schema.ColumnBoolean_verify, Schema.ColumnType_verify, Schema.push.
  split.
  - destruct (Schema._required this), v as [| |b|x|s|n| |[] len prim]; simpl; split;
      try (by intros [=]); try (by intros [? [=]]); eauto.
  - destruct (Schema._required this), v as [| |b|x|s|n| |[] len prim]; simpl; split;
      try (by intros [=]); try (by intros [[=]|[? ?]]); auto.
Qed.

(** X16.  The SQL keywords of [c.optional()] are those of a new column,
    NOT NULL alone, whatever flags [c] has: the flags set on [c] before
    [optional()] are not emitted, and [genCreateSql] does not throw even
    when [c] has auto-increment without primary.  So the fragment of an
    optional column in the statement of a table is its name and NOT
    NULL.  Flags set on the wrapper after [optional()] are emitted as on
    any column, and [unwrap()] gives the column back without NOT NULL. *)
Theorem optional_genCreateSql (c : Schema.Column) (column_name : string) :
  Schema.genCreateSql (Schema.optional c) = Schema.Normal ["NOT NULL"] /\
  Schema.column_sql (column_name, Some (Schema.optional c))
  = Schema.Normal (column_name +:+ " NOT NULL") /\
  Schema.genCreateSql (Schema.primary (Schema.optional c))
  = Schema.Normal ["PRIMARY KEY"; "NOT NULL"] /\
  Schema.genCreateSql (Schema.unwrap (Schema.optional c))
  = Schema.genCreateSql
      (Schema.with_base
         (fun b => Schema.mkColumnType false (Schema._unique b) (Schema._primary b)
                     (Schema._autoIncrement b)) c).
Proof. done. Qed.

(** X17.  The flag methods can be called in any order and more than
    once: [primary], [unique] and [autoIncrement] commute and each is
    idempotent, so [autoIncrement()] before [primary()] gives the column
    that [primary()] before [autoIncrement()] gives, and its
    [genCreateSql] returns, with both keywords. *)
Theorem flag_methods_commute (c : Schema.Column) :
  Schema.primary (Schema.autoIncrement c) = Schema.autoIncrement (Schema.primary c) /\
  Schema.primary (Schema.unique c) = Schema.unique (Schema.primary c) /\
  Schema.unique (Schema.autoIncrement c) = Schema.autoIncrement (Schema.unique c) /\
  Schema.primary (Schema.primary c) = Schema.primary c /\
  Schema.unique (Schema.unique c) = Schema.unique c /\
  Schema.autoIncrement (Schema.autoIncrement c) = Schema.autoIncrement c /\
  (exists sql,
     Schema.genCreateSql (Schema.primary (Schema.autoIncrement c)) = Schema.Normal sql
     /\ "PRIMARY KEY" ∈ sql /\ "AUTOINCREMENT" ∈ sql).
Proof.
  split_and!; try by destruct c.
  unfold Schema.genCreateSql, Schema.push.
  destruct c as [[[] [] [] []]|[[] [] [] []] ? ? ? ?|[[] [] [] []] ? ? ? ?
                |[[] [] [] []] ?|[[] [] [] []] ?]; simpl;
    (eexists; split; [reflexivity|]);
    rewrite ?elem_of_cons; auto 10.
Qed.

End BuilderFacts.

(** ** The further theorems at concrete columns and tables *)

Lemma optional_never_reports_required_witness :
  "value is required"
  ∉ ["value must be number"].
Proof.
  apply (optional_never_reports_required (fun _ => Schema.NaN) pretty
           Schema.integer Schema.VNull ["value must be number"]).
  - exact I.
  - reflexivity.
Defined.

Lemma optional_still_rejects_missing_value_witness :
  Schema.verify (fun _ => Schema.NaN) pretty (Schema.optional Schema.date) Schema.VUndefined
  = Schema.Normal [].
Proof.
  apply (optional_still_rejects_missing_value (fun _ => Schema.NaN) pretty
           Schema.date Schema.VUndefined).
  - exact I.
  - by left.
  - by eexists.
Defined.

Lemma table_columns_override_kernel_witness :
  Schema.obj_get "_id"
    (Schema.columns (Schema.table "users" [("name", Schema.text); ("_id", Schema.text)]))
  = Some (Some Schema.text).
Proof.
  destruct (table_columns_override_kernel "users"
              [("name", Schema.text); ("_id", Schema.text)] "_id") as [_ Hget].
  - apply (bool_decide_unpack _). by vm_compute.
  - exact Hget.
Defined.

Lemma Table_genCreateSql_returns_witness :
  exists sql,
    Schema.Table_genCreateSql
      (Schema.table "users"
         [("name", Schema.text); ("_createAt", Schema.date);
          ("_updateAt", Schema.date); ("_deleteAt", Schema.date)])
    = Schema.Normal sql.
Proof.
  apply (Table_genCreateSql_returns "users"
           [("name", Schema.text); ("_createAt", Schema.date);
            ("_updateAt", Schema.date); ("_deleteAt", Schema.date)]).
  - apply (bool_decide_unpack _). by vm_compute.
  - split.
    + simpl. rewrite !elem_of_cons. auto 10.
    + repeat constructor; by intros [? ?].
Defined.

Lemma Table_genCreateSql_uses_table_columns_witness :
  Schema.obj_spread (Schema.obj_spread [] Schema.kernelColumns)
    (Schema.columns (Schema.table "users" [("name", Schema.text); ("7", Schema.integer)]))
  = Schema.columns (Schema.table "users" [("name", Schema.text); ("7", Schema.integer)]).
Proof.
  destruct (Table_genCreateSql_uses_table_columns "users"
              [("name", Schema.text); ("7", Schema.integer)]) as [Hsame _].
  - apply (bool_decide_unpack _). by vm_compute.
  - exact Hsame.
Defined.
